(** * Numeral annotation pipeline

    A shallow embedding of [mark_with_ai_and_position.py] and the
    properties of its extractor, batcher, oracle client and reconciler.

    The database is a record of its two tables, a function that can raise
    returns in the [py] monad, and the remote service is a function from
    the batch and the attempt number to what the post meets. Worker
    threads only run the API calls, and the main thread reconciles the
    futures one by one, so a run is a fold over the futures in their order
    of completion. Logging and the two counters that only feed the log are
    left out.

    The last two parts embed the sentence store script
    [Searching4Nums_Store.py] and the ordinal count script [count_di.py],
    which fill and read the sentence table the labeling script starts
    from. *)

From Stdlib Require Import ZArith NArith QArith Ascii String.
From stdpp Require Import gmap list sorting.
From Equations Require Import Equations.

Local Open Scope Z_scope.
#[local] Set Warnings "-register-all".

(** ** Python strings

    A Python [str] is a sequence of Unicode code points; indices and
    lengths count code points.  String literals of the source file are
    written here as UTF-8 byte strings and decoded by [utf8]. *)

Abbreviation pystr := (list N).

Definition cont (b : N) : N := N.land b 63.

Fixpoint utf8_decode (bs : list N) : pystr :=
  match bs with
  | [] => []
  | b0 :: t0 =>
      if (b0 <? 128)%N then b0 :: utf8_decode t0
      else match t0 with
      | [] => [b0]
      | b1 :: t1 =>
          if (b0 <? 224)%N
          then (N.shiftl (N.land b0 31) 6 + cont b1)%N :: utf8_decode t1
          else match t1 with
          | [] => [b0; b1]
          | b2 :: t2 =>
              if (b0 <? 240)%N
              then (N.shiftl (N.land b0 15) 12 + N.shiftl (cont b1) 6
                    + cont b2)%N :: utf8_decode t2
              else match t2 with
              | [] => [b0; b1; b2]
              | b3 :: t3 =>
                  (N.shiftl (N.land b0 7) 18 + N.shiftl (cont b1) 12
                   + N.shiftl (cont b2) 6 + cont b3)%N :: utf8_decode t3
              end
          end
      end
  end.

Definition utf8 (s : string) : pystr :=
  utf8_decode (List.map N_of_ascii (list_ascii_of_string s)).

(** ** The extractor: [extract_chinese_numbers] *)

(** The character class of [pattern]. *)
Definition numeral_glyphs : pystr := utf8 "零一二三四五六七八九十百千万亿".

Definition is_numeral (c : N) : bool := existsb (N.eqb c) numeral_glyphs.

(** One element of [matches]: the dict with keys [text], [start], [end]. *)
Record number_match := NumberMatch {
  m_text : pystr;
  m_start : nat;
  m_end : nat
}.

(** The greedy run matched by [[...]+] at the head of [s], and what is left. *)
Fixpoint run (s : pystr) : pystr :=
  match s with
  | c :: s' => if is_numeral c then c :: run s' else []
  | [] => []
  end.

Fixpoint after_run (s : pystr) : pystr :=
  match s with
  | c :: s' => if is_numeral c then after_run s' else s
  | [] => []
  end.

Lemma after_run_length s : (length (after_run s) <= length s)%nat.
Proof.
  induction s as [|c s IH]; simpl; [lia|].
  destruct (is_numeral c); simpl; lia.
Qed.

(** [re.finditer(pattern, text)] from position [pos], [s] being
    [text[pos:]]: try the pattern at [pos]; on a match, emit it and resume
    at its end; otherwise move one character to the right. *)
Equations? finditer (pos : nat) (s : pystr) : list number_match
  by wf (length s) lt :=
  finditer pos [] := [];
  finditer pos (c :: s') with is_numeral c := {
    | true =>
        let grp := c :: run s' in
        NumberMatch grp pos (pos + length grp) ::
          finditer (pos + length grp) (after_run s');
    | false => finditer (S pos) s' }.
Proof.
  all: simpl; try lia.
  pose proof (after_run_length s'). lia.
Qed.

Definition extract_chinese_numbers (text : pystr) : list number_match :=
  finditer 0 text.

(** [text[start:stop]] for [0 <= start <= stop]; Python clamps both
    ends to the length of the sequence. *)
Definition py_slice {A} (l : list A) (start stop : nat) : list A :=
  take (stop - start) (drop start l).

(** ** Python values, exceptions and the runtime

    The values [json.loads] and [requests.Response.json] produce. A JSON
    number without fraction or exponent is an [int], any other number a
    [float]; a float is kept as the rational it denotes, or as one of the
    three non-finite values the decoder accepts. *)

Inductive pyfloat :=
| FFinite (q : Q)
| FNan
| FInf (negative : bool).

Inductive json :=
| JNull
| JBool (b : bool)
| JInt (z : Z)
| JFloat (f : pyfloat)
| JStr (s : pystr)
| JArr (items : list json)
| JObj (fields : list (pystr * json)).

Inductive exn :=
| TypeError
| ValueError
| OverflowError
| AttributeError
| KeyError
| IndexError
| JSONDecodeError
| HTTPError (status : Z)
| RequestException (kind : nat)
| ProgrammingError.

(** A computation that returns or raises. *)
Inductive py (A : Type) :=
| Ok (a : A)
| Raise (e : exn).
Arguments Ok {A} a.
Arguments Raise {A} e.

#[global] Instance py_ret : MRet py := λ A a, Ok a.
#[global] Instance py_bind : MBind py := λ A B f c,
  match c with Ok a => f a | Raise e => Raise e end.
#[global] Instance py_fmap : FMap py := λ A B f c,
  match c with Ok a => Ok (f a) | Raise e => Raise e end.

(** The two library functions the script relies on and that are not
    re-implemented here: [int] applied to a [str] ([None] stands for
    [ValueError]) and [json.loads] applied to a [str] ([None] stands for
    [JSONDecodeError]). *)
Class PyRuntime := {
  str_to_int : pystr → option Z;
  json_loads : pystr → option json
}.

(** The value bound to [key] in a dict, keys being unique. *)
Fixpoint assoc (key : pystr) (fields : list (pystr * json)) : option json :=
  match fields with
  | [] => None
  | (k, v) :: rest => if decide (k = key) then Some v else assoc key rest
  end.

(** [obj.get(key, dflt)]: only a dict has the method. *)
Definition py_get (obj : json) (key : pystr) (dflt : json) : py json :=
  match obj with
  | JObj fields => Ok (default dflt (assoc key fields))
  | _ => Raise AttributeError
  end.

(** [obj[key]] for a [str] key. *)
Definition py_item (obj : json) (key : pystr) : py json :=
  match obj with
  | JObj fields =>
      match assoc key fields with Some v => Ok v | None => Raise KeyError end
  | _ => Raise TypeError
  end.

(** [obj[0]]. *)
Definition py_item0 (obj : json) : py json :=
  match obj with
  | JArr (x :: _) => Ok x
  | JArr [] => Raise IndexError
  | JStr (c :: _) => Ok (JStr [c])
  | JStr [] => Raise IndexError
  | JObj _ => Raise KeyError
  | _ => Raise TypeError
  end.

Section Builtins.
Context `{!PyRuntime}.

(** [int(v)]. *)
Definition py_int (v : json) : py Z :=
  match v with
  | JNull => Raise TypeError
  | JBool b => Ok (if b then 1 else 0)
  | JInt z => Ok z
  | JFloat (FFinite q) => Ok (Z.quot (Qnum q) (Z.pos (Qden q)))
  | JFloat FNan => Raise ValueError
  | JFloat (FInf _) => Raise OverflowError
  | JStr s =>
      match str_to_int s with Some z => Ok z | None => Raise ValueError end
  | JArr _ | JObj _ => Raise TypeError
  end.

End Builtins.

(** ** Configuration *)

Definition MODEL_RETRIES : nat := 2.
Definition BATCH_SIZE : nat := 20.
Definition MAX_WORKERS : nat := 6.

(** ** The oracle client: [call_gemini_json] *)

(** What one [requests.post] does: it raises (connection error, timeout),
    or delivers a response with a status code and a body, [None] when
    [r.json()] cannot decode it. *)
Inductive http_reply :=
| PostRaises (e : exn)
| Response (status : Z) (body : option json).

(** [r.raise_for_status()]. *)
Definition raise_for_status (status : Z) : py unit :=
  if decide (400 ≤ status < 600) then Raise (HTTPError status) else Ok ().

Section OracleClient.
Context `{!PyRuntime}.

(** The body of the [try] block for one reply. *)
Definition attempt (reply : http_reply) : py json :=
  match reply with
  | PostRaises e => Raise e
  | Response status body =>
      _ ← raise_for_status status;
      data ← (match body with Some d => Ok d | None => Raise JSONDecodeError end);
      choices ← py_item data (utf8 "choices");
      choice ← py_item0 choices;
      message ← py_item choice (utf8 "message");
      msg ← py_item message (utf8 "content");
      match msg with
      | JObj _ => Ok msg
      | JStr s =>
          match json_loads s with
          | Some v => Ok v
          | None => Raise JSONDecodeError
          end
      | _ => Raise TypeError
      end
  end.

(** What a call leaves behind: how many requests were posted and the
    delays slept, oldest first. *)
Record client_trace := ClientTrace {
  posts : nat;
  sleeps : list Q
}.

(** [time.sleep(0.5 * (i + 1))]. *)
Definition backoff (i : nat) : Q := ((1 # 2) * inject_Z (Z.of_nat i + 1))%Q.

(** The [for i in range(retry)] loop from iteration [i] on, [n] iterations
    being left, followed by [raise last_err]; [replies k] is what the
    [k]-th post of this call meets. Raising [None] is a [TypeError]. *)
Fixpoint retry_loop (replies : nat → http_reply) (i n : nat)
    (last_err : option exn) (tr : client_trace) : py json * client_trace :=
  match n with
  | O => (Raise (default TypeError last_err), tr)
  | S n' =>
      let tr1 := ClientTrace (S (posts tr)) (sleeps tr) in
      match attempt (replies i) with
      | Ok v => (Ok v, tr1)
      | Raise e =>
          retry_loop replies (S i) n' (Some e)
            (ClientTrace (posts tr1) (sleeps tr1 ++ [backoff i]))
      end
  end.

Definition call_gemini_json (replies : nat → http_reply) (retry : nat)
    : py json * client_trace :=
  retry_loop replies 0 retry None (ClientTrace 0 []).

End OracleClient.

(** ** The store *)

(** A row of [number_level_analysis], its [id] being the key under which
    the table holds it; [number_type] is [None] for SQL [NULL]. *)
Record occurrence := Occurrence {
  source_id : Z;
  sentence : pystr;
  number_text : pystr;
  number_start : Z;
  number_end : Z;
  number_type : option Z
}.

(** The database: the rows of [new_num_sentences] in the order a scan
    returns them, the occurrence table under its primary key, and the last
    value its [BIGSERIAL] sequence handed out. *)
Record database := Database {
  new_num_sentences : list (Z * pystr);
  number_level_analysis : gmap Z occurrence;
  id_seq : Z
}.

(** [content LIKE '%needle%'] for a needle free of wildcards. *)
Fixpoint starts_with (needle s : pystr) : bool :=
  match needle, s with
  | [], _ => true
  | _ :: _, [] => false
  | a :: needle', b :: s' => (a =? b)%N && starts_with needle' s'
  end.

Fixpoint like_infix (needle s : pystr) : bool :=
  starts_with needle s ||
  match s with
  | [] => false
  | _ :: s' => like_infix needle s'
  end.

(** [INSERT INTO number_level_analysis (source_id, sentence, number_text,
    number_start, number_end) VALUES (...)]: the row gets the next value of
    the sequence as its id and [NULL] as its [number_type]. *)
Definition insert_number (db : database) (sid : Z) (text : pystr)
    (num_info : number_match) : database :=
  let new_id := id_seq db + 1 in
  Database (new_num_sentences db)
    (<[new_id := Occurrence sid text (m_text num_info)
                   (Z.of_nat (m_start num_info)) (Z.of_nat (m_end num_info))
                   None]> (number_level_analysis db))
    new_id.

(** The rows selected by [WHERE content NOT LIKE '%第%']. *)
Definition sentences_without_di (db : database) : list (Z * pystr) :=
  List.filter (λ row, negb (like_infix (utf8 "第") row.2)) (new_num_sentences db).

Definition extract_and_insert_numbers (db : database) : database :=
  foldl (λ db1 row,
           foldl (λ db2 num_info, insert_number db2 row.1 row.2 num_info)
             db1 (extract_chinese_numbers row.2))
    db (sentences_without_di db).

(** A row as [fetch_rows_to_label] returns it. *)
Record label_row := LabelRow {
  row_id : Z;
  row_sentence : pystr;
  row_number_text : pystr;
  row_number_start : Z;
  row_number_end : Z
}.

Definition to_label_row (kv : Z * occurrence) : label_row :=
  LabelRow kv.1 (sentence kv.2) (number_text kv.2)
    (number_start kv.2) (number_end kv.2).

Definition is_unlabeled (o : occurrence) : bool :=
  match number_type o with None => true | Some _ => false end.

(** The order of [ORDER BY id]. *)
Definition by_id (a b : Z * occurrence) : Prop := a.1 ≤ b.1.

#[global] Instance by_id_dec : RelDecision by_id := λ a b, Z_le_dec a.1 b.1.

(** [SELECT ... WHERE number_type IS NULL ORDER BY id]. *)
Definition fetch_rows_to_label (tbl : gmap Z occurrence) : list label_row :=
  to_label_row <$>
    merge_sort by_id (List.filter (λ kv, is_unlabeled kv.2) (map_to_list tbl)).

(** ** The batcher *)

(** [range(0, stop, step)] for [step >= 1]. *)
Definition py_range (stop step : nat) : list nat :=
  (λ k, k * step)%nat <$> seq 0 ((stop + step - 1) / step).

(** [[rows[i:i + n] for i in range(0, len(rows), n)]]. *)
Definition make_batches {A} (n : nat) (rows : list A) : list (list A) :=
  (λ i, py_slice rows i (i + n)) <$> py_range (length rows) n.

(** ** A worker's task: [process_batch_api_task] *)

(** The remote service as a task meets it: the request is determined by
    the batch, and [oracle b k] is the reply to the [k]-th post made for
    batch [b]. *)
Definition oracle := list label_row → nat → http_reply.

(** How a run ends: normally, or in the outer [except] after a rollback
    to the last commit. *)
Inductive run_result (S : Type) :=
| Finished (final : S)
| RolledBack (e : exn) (committed : S).
Arguments Finished {S} final.
Arguments RolledBack {S} e committed.

Section Pipeline.
Context `{!PyRuntime}.

(** The pair [(batch_rows, result)], with [JNull] for Python's [None]. *)
Definition process_batch_api_task (svc : oracle) (batch_rows : list label_row)
    : list label_row * json :=
  match (call_gemini_json (svc batch_rows) MODEL_RETRIES).1 with
  | Ok result => (batch_rows, result)
  | Raise _ => (batch_rows, JNull)
  end.

(** ** The reconciler: the body of the [as_completed] loop *)

(** [id::float8]: the double nearest to a [BIGINT], a tie going to the
    even mantissa, given as the integer it is worth. Up to 53 bits the
    conversion is exact. *)
Definition float8 (k : Z) : Z :=
  let a := Z.abs k in
  let e := Z.log2 a - 52 in
  if e <=? 0 then k
  else
    let m := Z.shiftr a e in
    let r := Z.land a (Z.ones e) in
    let half := Z.shiftl 1 (e - 1) in
    let m' := if (half <? r) || ((r =? half) && Z.odd m) then m + 1 else m in
    Z.sgn k * Z.shiftl m' e.

(** The [rid] handed to the driver as the parameter of [WHERE id=%s]: a
    Python [int], or a [float] without fractional part, given as the
    integer it is worth. *)
Inductive sql_param :=
| IntParam (rid : Z)
| FloatParam (rid : Z).

Definition param_value (p : sql_param) : Z :=
  match p with IntParam rid | FloatParam rid => rid end.

(** [id = %s] on the row of id [k]. An [int] is compared as an integer.
    A [float] goes to the server as a [float8], and [id] is converted to
    [float8] for the comparison. A Python float is a double, so that
    [float8 rid] is [rid] itself for every id a response can carry. *)
Definition param_selects (p : sql_param) (k : Z) : bool :=
  match p with
  | IntParam rid => bool_decide (k = rid)
  | FloatParam rid => bool_decide (float8 k = float8 rid)
  end.

(** An executed [UPDATE number_level_analysis SET number_type=%s WHERE id=%s]. *)
Record update_stmt := UpdateWhere {
  set_number_type : Z;
  where_param : sql_param
}.

Definition Update (num_type rid : Z) : update_stmt :=
  UpdateWhere num_type (IntParam rid).

Definition where_id (u : update_stmt) : Z := param_value (where_param u).

Definition selects (u : update_stmt) (k : Z) : bool :=
  param_selects (where_param u) k.

Definition with_number_type (t : option Z) (o : occurrence) : occurrence :=
  Occurrence (source_id o) (sentence o) (number_text o)
    (number_start o) (number_end o) t.

(** The statement writes every row its [WHERE] clause selects. *)
Definition exec_update (tbl : gmap Z occurrence) (u : update_stmt)
    : gmap Z occurrence :=
  map_imap (λ k o, Some (if selects u k
                         then with_number_type (Some (set_number_type u)) o
                         else o)) tbl.

(** Both failure branches: one [UPDATE ... SET number_type=-1] per row. *)
Definition mark_failed (batch_rows : list label_row) : list update_stmt :=
  (λ r, Update (-1) (row_id r)) <$> batch_rows.

(** [{r["id"]: r for r in batch_rows}]. *)
Definition id_map (batch_rows : list label_row) : gmap Z label_row :=
  foldl (λ m r, <[row_id r := r]> m) ∅ batch_rows.

(** The [try] block that decodes [item.get("type")]. *)
Definition decode_type (ty : json) : Z :=
  match py_int ty with
  | Ok num_type =>
      if decide (num_type = 0 ∨ num_type = 1 ∨ num_type = 2)
      then num_type else -1
  | Raise _ => -1
  end.

(** [rid in id_map], and the parameter the [UPDATE] is then executed
    with: [None] when the test is false. The keys are integers; an
    integral float or a bool compares and hashes like its integer, a list
    or dict is unhashable, and a bool parameter cannot be compared with
    the [BIGINT] column. *)
Definition locate (rid : json) (m : gmap Z label_row) : py (option sql_param) :=
  let hit (k : Z) (p : sql_param) :=
    if decide (is_Some (m !! k)) then Some p else None in
  match rid with
  | JInt k => Ok (hit k (IntParam k))
  | JFloat (FFinite q) =>
      if decide (Z.rem (Qnum q) (Z.pos (Qden q)) = 0)
      then let k := Z.quot (Qnum q) (Z.pos (Qden q)) in Ok (hit k (FloatParam k))
      else Ok None
  | JBool b =>
      let k := if b then 1 else 0 in
      match hit k (IntParam k) with
      | Some _ => Raise ProgrammingError
      | None => Ok None
      end
  | JNull | JStr _ | JFloat _ => Ok None
  | JArr _ | JObj _ => Raise TypeError
  end.

(** One iteration of [for item in results]. *)
Definition item_updates (m : gmap Z label_row) (item : json)
    : py (list update_stmt) :=
  rid ← py_get item (utf8 "id") JNull;
  ty ← py_get item (utf8 "type") JNull;
  let num_type := decode_type ty in
  found ← locate rid m;
  mret (match found with
        | Some p => [UpdateWhere num_type p]
        | None => []
        end).

Fixpoint results_updates (m : gmap Z label_row) (results : list json)
    : py (list update_stmt) :=
  match results with
  | [] => Ok []
  | item :: rest =>
      us ← item_updates m item;
      vs ← results_updates m rest;
      mret (us ++ vs)
  end.

(** The statements executed for one completed future before its
    [conn.commit()]. *)
Definition batch_updates (batch_rows : list label_row) (api_result : json)
    : py (list update_stmt) :=
  match api_result with
  | JNull => Ok (mark_failed batch_rows)
  | _ =>
      results ← py_get api_result (utf8 "results") (JArr []);
      match results with
      | JArr items => results_updates (id_map batch_rows) items
      | _ => Ok (mark_failed batch_rows)
      end
  end.

(** One pass of the loop body up to its [conn.commit()]: the table after
    the batch's statements, or the exception that leaves the loop. *)
Definition reconcile (batch_rows : list label_row) (api_result : json)
    (tbl : gmap Z occurrence) : py (gmap Z occurrence) :=
  foldl exec_update tbl <$> batch_updates batch_rows api_result.

(** The [for fut in as_completed(futures)] loop over the futures in their
    order of completion; [tbl] is the committed table. *)
Fixpoint label_loop (completed : list (list label_row * json))
    (tbl : gmap Z occurrence) : run_result (gmap Z occurrence) :=
  match completed with
  | [] => Finished tbl
  | (batch_rows, api_result) :: rest =>
      match reconcile batch_rows api_result tbl with
      | Ok tbl1 => label_loop rest tbl1
      | Raise e => RolledBack e tbl
      end
  end.

(** ** The main flow: [process_all] *)

(** Step 2: extraction runs only when the occurrence table is empty. *)
Definition extraction_step (db : database) : database :=
  if decide (size (number_level_analysis db) = 0%nat)
  then extract_and_insert_numbers db
  else db.

Definition with_table (db : database) (tbl : gmap Z occurrence) : database :=
  Database (new_num_sentences db) tbl (id_seq db).

(** [as_completed] is an arbitrary reordering of the futures. *)
Definition process_all (svc : oracle)
    (as_completed : list (list label_row * json) → list (list label_row * json))
    (db : database) : run_result database :=
  let db1 := extraction_step db in
  let rows := fetch_rows_to_label (number_level_analysis db1) in
  match rows with
  | [] => Finished db1
  | _ =>
      let batches := make_batches BATCH_SIZE rows in
      let futures := process_batch_api_task svc <$> batches in
      match label_loop (as_completed futures) (number_level_analysis db1) with
      | Finished tbl => Finished (with_table db1 tbl)
      | RolledBack e tbl => RolledBack e (with_table db1 tbl)
      end
  end.

End Pipeline.

(** ** A concrete runtime for the worked examples *)

(** [int] on a string of ASCII characters: optional blanks, an optional
    sign, decimal digits with single underscores between them. *)
Definition is_blank (c : N) : bool :=
  ((9 <=? c) && (c <=? 13) || (c =? 32))%N.

Fixpoint lstrip (s : pystr) : pystr :=
  match s with
  | c :: s' => if is_blank c then lstrip s' else s
  | [] => []
  end.

Definition strip (s : pystr) : pystr := reverse (lstrip (reverse (lstrip s))).

Definition digit_of (c : N) : option Z :=
  if ((48 <=? c) && (c <=? 57))%N then Some (Z.of_N c - 48) else None.

(** Digits after the first one; [sep] tells that the previous character
    was an underscore. *)
Fixpoint digits_from (acc : Z) (sep : bool) (s : pystr) : option Z :=
  match s with
  | [] => if sep then None else Some acc
  | c :: s' =>
      if (c =? 95)%N then (if sep then None else digits_from acc true s')
      else match digit_of c with
           | Some d => digits_from (10 * acc + d) false s'
           | None => None
           end
  end.

Definition unsigned_of (s : pystr) : option Z :=
  match s with
  | c :: s' => d ← digit_of c; digits_from d false s'
  | [] => None
  end.

Definition ascii_str_to_int (s : pystr) : option Z :=
  match strip s with
  | 43%N :: s' => unsigned_of s'
  | 45%N :: s' => Z.opp <$> unsigned_of s'
  | s' => unsigned_of s'
  end.

(** The reply of the end-to-end scenario, as text and decoded. *)
(** JSON text written with single quotes in place of the double ones. *)
Definition wire (s : string) : pystr :=
  (λ c, if (c =? 39)%N then 34%N else c) <$> utf8 s.

Definition scenario_text : pystr :=
  wire "{'results':[{'id':1,'type':1},{'id':2,'type':0}]}".

Definition entry (rid ty : json) : json :=
  JObj [(utf8 "id", rid); (utf8 "type", ty)].

Definition scenario_reply : json :=
  JObj [(utf8 "results", JArr [entry (JInt 1) (JInt 1); entry (JInt 2) (JInt 0)])].

(** A [json.loads] that knows the scenario's reply and rejects any other
    text. *)
Definition mock_json_loads (s : pystr) : option json :=
  if decide (s = scenario_text) then Some scenario_reply else None.

Definition mock_runtime : PyRuntime :=
  {| str_to_int := ascii_str_to_int; json_loads := mock_json_loads |}.

(** A well-formed chat-completion body around a message content. *)
Definition completion (content : json) : json :=
  JObj [(utf8 "choices",
         JArr [JObj [(utf8 "message", JObj [(utf8 "content", content)])]])].

Definition scenario_db : database :=
  Database [(7, utf8 "三楼住着一百人")] ∅ 0.

(** A populated store with three unlabeled occurrences, ids 1 to 3: the
    two of the scenario's sentence and the [一] of a second sentence. *)
Definition three_db : database :=
  extraction_step
    (Database [(7, utf8 "三楼住着一百人"); (8, utf8 "他一向如此")] ∅ 0).

Definition three_tbl : gmap Z occurrence := number_level_analysis three_db.

Definition three_rows : list label_row := fetch_rows_to_label three_tbl.

Definition third_row : label_row :=
  LabelRow 3 (utf8 "他一向如此") (utf8 "一") 1 2.

(** * Properties *)

(** ** The extractor *)

Lemma run_after_run s : run s ++ after_run s = s.
Proof.
  induction s as [|c s IH]; simpl; [done|].
  destruct (is_numeral c); simpl; [by rewrite IH | done].
Qed.

Lemma run_numeral s : Forall (λ c, is_numeral c = true) (run s).
Proof.
  induction s as [|c s IH]; simpl; [constructor|].
  destruct (is_numeral c) eqn:E; by constructor.
Qed.

Lemma after_run_head s c : head (after_run s) = Some c → is_numeral c = false.
Proof.
  induction s as [|d s IH]; simpl; [done|].
  destruct (is_numeral d) eqn:E; [done|]. simpl. congruence.
Qed.

(** What a single match must satisfy with respect to the scanned text. *)
Record match_ok (text : pystr) (m : number_match) : Prop := MatchOk {
  ok_bounds : (m_start m < m_end m ≤ length text)%nat;
  ok_text : m_text m = py_slice text (m_start m) (m_end m);
  ok_glyphs : Forall (λ c, is_numeral c = true) (m_text m);
  ok_left : ∀ c, (0 < m_start m)%nat →
      text !! (m_start m - 1)%nat = Some c → is_numeral c = false;
  ok_right : ∀ c, text !! m_end m = Some c → is_numeral c = false
}.

(** Matches come in left-to-right order and never overlap. *)
Definition in_order : list number_match → Prop :=
  StronglySorted (λ a b, (m_end a < m_start b)%nat).

(** Every numeral glyph at or after [pos] lies inside some match. *)
Definition covers (text : pystr) (pos : nat) (ms : list number_match) : Prop :=
  ∀ i c, (pos ≤ i)%nat → text !! i = Some c → is_numeral c = true →
    ∃ m, m ∈ ms ∧ (m_start m ≤ i < m_end m)%nat.

Record scan_ok (text : pystr) (pos : nat) (ms : list number_match) : Prop := {
  scan_each : Forall (match_ok text) ms;
  scan_from : Forall (λ m, (pos ≤ m_start m)%nat) ms;
  scan_order : in_order ms;
  scan_covers : covers text pos ms
}.

(** The scan never resumes in the middle of a run. *)
Definition at_boundary (pre s : pystr) : Prop :=
  ∀ c0 c1, last pre = Some c0 → head s = Some c1 →
    is_numeral c0 = true → is_numeral c1 = false.

(** Inside a match every character is a numeral glyph. *)
Lemma match_ok_inside text m i :
  match_ok text m → (m_start m ≤ i < m_end m)%nat →
  ∃ c, text !! i = Some c ∧ is_numeral c = true.
Proof.
  intros [Hb Ht Hg _ _] Hi.
  assert (Hlt : (i < length text)%nat) by lia.
  destruct (lookup_lt_is_Some_2 _ _ Hlt) as [c Hc].
  exists c. split; [done|].
  rewrite Forall_forall in Hg. apply Hg.
  rewrite Ht. unfold py_slice.
  apply list_elem_of_lookup. exists (i - m_start m)%nat.
  rewrite lookup_take_lt by lia. rewrite lookup_drop.
  rewrite <- Hc. f_equal. lia.
Qed.

Lemma finditer_ok pos s :
  ∀ pre, length pre = pos → at_boundary pre s →
    scan_ok (pre ++ s) pos (finditer pos s).
Proof.
  funelim (finditer pos s); intros pre Hlen Hb.
  - split; try constructor.
    intros i c Hi Hl. apply lookup_lt_Some in Hl.
    rewrite length_app in Hl. simpl in Hl. lia.
  - (* a match starts at [pos] *)
    set (grp := c :: run s') in *.
    assert (Htext : pre ++ c :: s' = (pre ++ grp) ++ after_run s').
    { unfold grp. rewrite <- (run_after_run s') at 1.
      by rewrite <- app_assoc. }
    assert (Hstop : ∀ c0, (pre ++ c :: s') !! (pos + length grp)%nat = Some c0 →
                          is_numeral c0 = false).
    { intros c0 Hl. rewrite Htext in Hl.
      rewrite lookup_app_r in Hl by (rewrite length_app; lia).
      replace (pos + length grp - length (pre ++ grp))%nat with 0%nat in Hl
        by (rewrite length_app; lia).
      apply after_run_head with s'. by rewrite head_lookup. }
    assert (Hrec : scan_ok (pre ++ c :: s') (pos + length grp)
                     (finditer (pos + length grp) (after_run s'))).
    { rewrite Htext. apply H.
      - rewrite length_app. lia.
      - intros c0 c1 _ Hh _. by apply after_run_head with s'. }
    destruct Hrec as [He Hf Ho Hc].
    assert (Hm0 : match_ok (pre ++ c :: s')
                    (NumberMatch grp pos (pos + length grp))).
    { split; cbn [m_start m_end m_text].
      - rewrite Htext, !length_app. unfold grp; simpl. lia.
      - unfold py_slice.
        rewrite Htext, <- app_assoc, drop_app_length' by done.
        by rewrite take_app_length' by (unfold grp; simpl; lia).
      - constructor; [done | apply run_numeral].
      - intros c0 Hpos Hl.
        destruct (is_numeral c0) eqn:E0; [|done].
        rewrite <- Heq. apply (Hb c0 c); [|done|done].
        rewrite lookup_app_l in Hl by lia.
        rewrite last_lookup. rewrite <- Hl. f_equal. lia.
      - exact Hstop. }
    split.
    + by constructor.
    + constructor; [simpl; lia|].
      eapply Forall_impl; [exact Hf|]. simpl. intros; lia.
    + constructor; [done|].
      rewrite Forall_forall in He, Hf. apply Forall_forall. intros m Hm.
      cbn [m_end m_start].
      destruct (decide (m_start m = (pos + length grp)%nat)) as [Heq'|];
        [|specialize (Hf m Hm); cbn beta in Hf; lia].
      exfalso.
      pose proof (He m Hm) as Hok.
      destruct (match_ok_inside _ m (m_start m) Hok) as (c0 & Hl & Hn).
      { destruct Hok. lia. }
      rewrite Heq' in Hl. apply Hstop in Hl. congruence.
    + intros i c0 Hi Hl Hn.
      destruct (decide (i < pos + length grp)%nat).
      * exists (NumberMatch grp pos (pos + length grp)).
        cbn [m_end m_start]. split; [left | lia].
      * destruct (Hc i c0) as (m & Hm & Hr); [lia|done|done|].
        exists m. split; [by right | done].
  - (* no match at [pos]: move on by one character *)
    assert (Htext : pre ++ c :: s' = (pre ++ [c]) ++ s')
      by (by rewrite <- app_assoc).
    assert (Hrec : scan_ok (pre ++ c :: s') (S pos) (finditer (S pos) s')).
    { rewrite Htext. apply H.
      - rewrite length_app. simpl. lia.
      - intros c0 c1 Hl _ Hn. rewrite last_snoc in Hl. congruence. }
    destruct Hrec as [He Hf Ho Hc].
    split; [done | | done |].
    + eapply Forall_impl; [exact Hf|]. simpl. intros; lia.
    + intros i c0 Hi Hl Hn.
      destruct (decide (i = pos)) as [->|].
      * rewrite <- Hlen in Hl.
        rewrite list_lookup_middle in Hl by done. congruence.
      * apply (Hc i c0); [lia|done|done].
Qed.


(** C8. [extract_chinese_numbers] is a total function of the text. Each
    match it returns has a span [0 <= start < end <= len(text)] whose
    slice of the text is the match's own text, made of numeral glyphs only
    and bounded on both sides by the ends of the text or by a character
    that is no numeral glyph (the run is the longest one). The matches
    come left to right without overlap, and no numeral glyph of the text
    lies outside them. For the sentence of the end-to-end scenario the
    result is the two matches at [0,1) and [4,6). *)
Theorem extract_chinese_numbers_spec (text : pystr) :
  Forall (match_ok text) (extract_chinese_numbers text) ∧
  in_order (extract_chinese_numbers text) ∧
  covers text 0 (extract_chinese_numbers text) ∧
  extract_chinese_numbers (utf8 "三楼住着一百人") =
    [NumberMatch (utf8 "三") 0 1; NumberMatch (utf8 "一百") 4 6].
Proof.
  destruct (finditer_ok 0 text [] eq_refl) as [He _ Ho Hc].
  { intros c0 c1 Hl. discriminate Hl. }
  split; [exact He|]. split; [exact Ho|]. split; [exact Hc|].
  vm_compute. reflexivity.
Qed.

(** ** The batcher *)

Section Batcher.
Context {A : Type}.
Implicit Types (xs : list A) (n m k : nat).

Lemma take_then_take_drop xs a b :
  take a xs ++ take b (drop a xs) = take (a + b) xs.
Proof.
  revert xs. induction a as [|a IH]; intros xs; simpl.
  - by rewrite drop_0.
  - destruct xs as [|x xs]; simpl; [by rewrite take_nil | by rewrite IH].
Qed.

Lemma py_slice_window xs i n : py_slice xs i (i + n) = take n (drop i xs).
Proof. unfold py_slice. f_equal. lia. Qed.

(** The first [m] windows of width [n] make up the first [m * n] elements. *)
Lemma concat_windows xs n m :
  concat ((λ i, py_slice xs i (i + n)) <$> ((λ k, k * n)%nat <$> seq 0 m))
  = take (m * n) xs.
Proof.
  induction m as [|m IH]; [done|].
  rewrite seq_S, !fmap_app, concat_app, IH. simpl.
  rewrite app_nil_r, py_slice_window, take_then_take_drop.
  f_equal. lia.
Qed.

Lemma batch_count_covers len n :
  (1 ≤ n)%nat → (len ≤ (len + n - 1) / n * n)%nat.
Proof.
  intros Hn.
  pose proof (Nat.div_mod_eq (len + n - 1) n) as Hd.
  pose proof (Nat.mod_upper_bound (len + n - 1) n ltac:(lia)) as Hm.
  lia.
Qed.

Lemma batch_count_tight len n :
  (1 ≤ n)%nat → (1 ≤ len)%nat → ((len + n - 1) / n * n < len + n)%nat.
Proof.
  intros Hn Hl.
  pose proof (Nat.div_mod_eq (len + n - 1) n) as Hd.
  lia.
Qed.

Lemma make_batches_lookup xs n k b :
  make_batches n xs !! k = Some b → b = take n (drop (k * n) xs) ∧
  (k < (length xs + n - 1) / n)%nat.
Proof.
  unfold make_batches, py_range. rewrite <- list_fmap_compose.
  rewrite list_lookup_fmap. intros Hl.
  destruct (seq 0 ((length xs + n - 1) / n) !! k) as [j|] eqn:Hs; [|done].
  apply lookup_seq in Hs as [-> Hk]. simpl in Hl.
  injection Hl as <-. by rewrite py_slice_window.
Qed.

Lemma make_batches_concat xs n :
  (1 ≤ n)%nat → concat (make_batches n xs) = xs.
Proof.
  intros Hn. unfold make_batches, py_range. rewrite concat_windows.
  apply take_ge. by apply batch_count_covers.
Qed.

Lemma make_batches_length xs n :
  length (make_batches n xs) = ((length xs + n - 1) / n)%nat.
Proof. unfold make_batches, py_range. by rewrite !length_fmap, length_seq. Qed.

End Batcher.

(** C5. For a non-empty list and a batch size of at least one,
    [make_batches] cuts the list into consecutive slices: the [k]-th batch
    is [xs[k*n : k*n + n]], the batches concatenated give the list back,
    every batch but the last has exactly [n] elements, and the last one
    has between one and [n]. *)
Theorem make_batches_partition {A} (n : nat) (xs : list A) :
  xs ≠ [] → (1 ≤ n)%nat →
  concat (make_batches n xs) = xs ∧
  (∀ k b, make_batches n xs !! k = Some b →
     b = py_slice xs (k * n) (k * n + n)) ∧
  (∀ k b, make_batches n xs !! k = Some b →
     (S k < length (make_batches n xs))%nat → length b = n) ∧
  (∀ b, last (make_batches n xs) = Some b → (1 ≤ length b ≤ n)%nat).
Proof.
  intros Hne Hn.
  assert (Hlen : (1 ≤ length xs)%nat) by (destruct xs; [done | simpl; lia]).
  pose proof (batch_count_covers (length xs) n Hn) as Hcov.
  pose proof (batch_count_tight (length xs) n Hn Hlen) as Htight.
  split; [|split; [|split]].
  - by apply make_batches_concat.
  - intros k b Hk. apply make_batches_lookup in Hk as [-> _].
    by rewrite py_slice_window.
  - intros k b Hk Hlast. rewrite make_batches_length in Hlast.
    apply make_batches_lookup in Hk as [-> _].
    rewrite length_take, length_drop.
    assert ((S k * n ≤ ((length xs + n - 1) / n - 1) * n)%nat)
      by (apply Nat.mul_le_mono_r; lia).
    nia.
  - intros b Hb. rewrite last_lookup, make_batches_length in Hb.
    apply make_batches_lookup in Hb as [-> Hk].
    rewrite length_take, length_drop.
    nia.
Qed.

(** Three batches of sizes 3, 3 and 1 out of seven rows. *)
Lemma make_batches_partition_witness :
  concat (make_batches 3 [1; 2; 3; 4; 5; 6; 7]) = [1; 2; 3; 4; 5; 6; 7] ∧
  make_batches 3 [1; 2; 3; 4; 5; 6; 7] = [[1; 2; 3]; [4; 5; 6]; [7]].
Proof.
  split; [|reflexivity].
  apply (make_batches_partition 3 [1; 2; 3; 4; 5; 6; 7]); [discriminate | lia].
Defined.

(** ** Extraction into the store *)

Section Extraction.
Implicit Types (db : database) (s : pystr).

Lemma starts_with_spec needle s :
  starts_with needle s = true ↔ ∃ b, s = needle ++ b.
Proof.
  revert s. induction needle as [|a needle IH]; intros s; simpl.
  - split; [eauto | done].
  - destruct s as [|c s]; simpl.
    + split; [done | intros [b Hb]; discriminate Hb].
    + rewrite andb_true_iff, IH, N.eqb_eq. split.
      * intros [-> [b ->]]. eauto.
      * intros [b Hb]. injection Hb as -> ->. eauto.
Qed.

(** [LIKE '%needle%'] holds exactly of the texts that contain the needle. *)
Lemma like_infix_spec needle s :
  like_infix needle s = true ↔ ∃ a b, s = a ++ needle ++ b.
Proof.
  induction s as [|c s IH]; simpl.
  - rewrite orb_false_r, starts_with_spec. split.
    + intros [b Hb]. by exists [], b.
    + intros (a & b & Hab). destruct a; [by exists b|discriminate Hab].
  - rewrite orb_true_iff, starts_with_spec, IH. split.
    + intros [[b Hb] | (a & b & ->)]; [by exists [], b | by exists (c :: a), b].
    + intros (a & b & Hab). destruct a as [|a0 a]; [left; by exists b|].
      right. injection Hab as -> ->. eauto.
Qed.

(** The occurrences an extraction pass inserts, in order. *)
Definition extracted (sentences : list (Z * pystr))
    : list (Z * pystr * number_match) :=
  row ← sentences; (λ num_info, (row.1, row.2, num_info)) <$>
                     extract_chinese_numbers row.2.

Definition insert_all db (occs : list (Z * pystr * number_match)) : database :=
  foldl (λ db1 occ, insert_number db1 occ.1.1 occ.1.2 occ.2) db occs.

Lemma extract_and_insert_numbers_flat db :
  extract_and_insert_numbers db = insert_all db (extracted (sentences_without_di db)).
Proof.
  unfold extract_and_insert_numbers, insert_all, extracted.
  generalize (sentences_without_di db). intros l. revert db.
  induction l as [|row l IH]; intros db; [done|].
  simpl. rewrite foldl_app, <- IH. f_equal.
  generalize (extract_chinese_numbers row.2). intros ms. revert db.
  induction ms as [|m ms IHm]; intros db; [done|]. simpl. apply IHm.
Qed.

Lemma insert_all_sentences db occs :
  new_num_sentences (insert_all db occs) = new_num_sentences db.
Proof.
  revert db. induction occs as [|o occs IH]; intros db; [done|].
  simpl. by rewrite IH.
Qed.

Lemma insert_all_non_empty db occs :
  number_level_analysis db ≠ ∅ → number_level_analysis (insert_all db occs) ≠ ∅.
Proof.
  revert db. induction occs as [|o occs IH]; intros db Hne; [done|].
  simpl. apply IH. simpl. apply insert_non_empty.
Qed.

(** An insertion pass either inserts nothing or leaves a non-empty table. *)
Lemma insert_all_size db occs :
  insert_all db occs = db ∨ size (number_level_analysis (insert_all db occs)) ≠ 0%nat.
Proof.
  destruct occs as [|o occs]; [by left|]. right.
  rewrite map_size_empty_iff. simpl.
  apply insert_all_non_empty. simpl. apply insert_non_empty.
Qed.

Lemma extraction_step_cases db :
  extraction_step db = db ∨
  size (number_level_analysis (extraction_step db)) ≠ 0%nat.
Proof.
  unfold extraction_step. case_decide; [|by left].
  rewrite extract_and_insert_numbers_flat. apply insert_all_size.
Qed.

(** Every row of the table after a pass was there before or comes from a
    selected sentence. *)
Lemma insert_all_rows db occs k o :
  number_level_analysis (insert_all db occs) !! k = Some o →
  number_level_analysis db !! k = Some o ∨
  ∃ occ, occ ∈ occs ∧
    o = Occurrence occ.1.1 occ.1.2 (m_text occ.2)
          (Z.of_nat (m_start occ.2)) (Z.of_nat (m_end occ.2)) None.
Proof.
  revert db. induction occs as [|occ occs IH]; intros db Hk; [by left|].
  simpl in Hk. apply IH in Hk as [Hk | (occ' & Hin & ->)].
  - simpl in Hk. rewrite lookup_insert in Hk.
    case_decide; [|by left].
    right. exists occ. split; [left | congruence].
  - right. exists occ'. split; [by right | done].
Qed.

End Extraction.

(** C9. When the occurrence table already holds rows, the extraction step
    of [process_all] leaves the database as it is; and the step run a
    second time changes nothing, whatever the database, so that rows are
    never duplicated. *)
Theorem extraction_step_idempotent (db : database) :
  (size (number_level_analysis db) ≠ 0%nat → extraction_step db = db) ∧
  extraction_step (extraction_step db) = extraction_step db.
Proof.
  split.
  - intros Hne. unfold extraction_step. by case_decide.
  - destruct (extraction_step_cases db) as [Hsame | Hne].
    + by rewrite !Hsame.
    + unfold extraction_step at 1. by rewrite decide_False.
Qed.

(** The step skips a database that already holds the scenario's two rows. *)
Lemma extraction_step_idempotent_witness :
  size (number_level_analysis (extraction_step scenario_db)) = 2%nat ∧
  extraction_step (extraction_step scenario_db) = extraction_step scenario_db.
Proof.
  split; [reflexivity|].
  apply (proj1 (extraction_step_idempotent (extraction_step scenario_db))).
  vm_compute. lia.
Defined.

(** A text contains the character [第]. *)
Definition contains_di (s : pystr) : Prop := ∃ a b, s = a ++ utf8 "第" ++ b.

(** C10. After [extract_and_insert_numbers], every row of the occurrence
    table either was there before, or was built from a stored sentence
    whose text does not contain [第], with that sentence's id and text and
    one of its extracted matches. A stored sentence that contains [第]
    contributes nothing: with or without it, the pass produces the same
    table and draws the same ids. *)
Theorem extraction_excludes_di (db : database) :
  (∀ k o,
     number_level_analysis (extract_and_insert_numbers db) !! k = Some o →
     number_level_analysis db !! k = Some o ∨
     ∃ sid content num_info,
       (sid, content) ∈ new_num_sentences db ∧ ¬ contains_di content ∧
       num_info ∈ extract_chinese_numbers content ∧
       o = Occurrence sid content (m_text num_info)
             (Z.of_nat (m_start num_info)) (Z.of_nat (m_end num_info)) None) ∧
  (∀ pre row post,
     new_num_sentences db = pre ++ row :: post → contains_di row.2 →
     let db' := Database (pre ++ post) (number_level_analysis db) (id_seq db) in
     number_level_analysis (extract_and_insert_numbers db) =
       number_level_analysis (extract_and_insert_numbers db') ∧
     id_seq (extract_and_insert_numbers db) =
       id_seq (extract_and_insert_numbers db')).
Proof.
  split.
  - intros k o Hk. rewrite extract_and_insert_numbers_flat in Hk.
    apply insert_all_rows in Hk as [Hk | (occ & Hin & ->)]; [by left|].
    right. unfold extracted in Hin.
    apply list_elem_of_bind in Hin as ([sid content] & Hocc & Hrow).
    apply list_elem_of_fmap in Hocc as (num_info & -> & Hm). simpl in *.
    exists sid, content, num_info.
    unfold sentences_without_di in Hrow.
    apply list_elem_of_In, filter_In in Hrow as [Hrow Hlike].
    apply list_elem_of_In in Hrow. simpl in Hlike.
    apply negb_true_iff in Hlike.
    split; [done|]. split; [|done].
    intros Hc. apply like_infix_spec in Hc. congruence.
  - intros pre row post Hsrc Hdi db'.
    rewrite !extract_and_insert_numbers_flat.
    assert (Hsel : sentences_without_di db = sentences_without_di db').
    { unfold sentences_without_di, db'. rewrite Hsrc. simpl.
      rewrite !List.filter_app. simpl.
      apply like_infix_spec in Hdi. by rewrite Hdi. }
    rewrite Hsel. generalize (extracted (sentences_without_di db')). intros occs.
    assert (Hgen : ∀ d1 d2,
              number_level_analysis d1 = number_level_analysis d2 →
              id_seq d1 = id_seq d2 →
              number_level_analysis (insert_all d1 occs) =
                number_level_analysis (insert_all d2 occs) ∧
              id_seq (insert_all d1 occs) = id_seq (insert_all d2 occs)).
    { induction occs as [|occ occs IH]; intros d1 d2 Ht Hs; [done|].
      simpl. apply IH; simpl; by rewrite ?Ht, ?Hs. }
    by apply Hgen.
Qed.

(** The pass ignores a sentence with [第] placed before the scenario's. *)
Lemma extraction_excludes_di_witness :
  number_level_analysis
    (extract_and_insert_numbers
       (Database [(6, utf8 "第三名"); (7, utf8 "三楼住着一百人")] ∅ 0)) =
  number_level_analysis (extract_and_insert_numbers scenario_db).
Proof.
  apply (proj2 (extraction_excludes_di
                  (Database [(6, utf8 "第三名"); (7, utf8 "三楼住着一百人")] ∅ 0))
           [] (6, utf8 "第三名") [(7, utf8 "三楼住着一百人")] eq_refl).
  exists [], (utf8 "三名"). reflexivity.
Defined.

(** ** The oracle client *)

Section OracleClientFacts.
Context `{!PyRuntime}.
Implicit Types (replies : nat → http_reply) (tr : client_trace).

(** An attempt that ends in the [except] branch. *)
Definition fails (reply : http_reply) : Prop := ∃ e, attempt reply = Raise e.

Lemma retry_loop_posts replies i n last_err tr :
  (posts (retry_loop replies i n last_err tr).2 ≤ posts tr + n)%nat.
Proof.
  revert i last_err tr. induction n as [|n IH]; intros i last_err tr; simpl.
  - lia.
  - destruct (attempt (replies i)); simpl; [lia|].
    etrans; [apply IH|]. simpl. lia.
Qed.

Lemma retry_loop_first_success replies i n last_err tr k v :
  (k < n)%nat →
  (∀ j, (j < k)%nat → fails (replies (i + j)%nat)) →
  attempt (replies (i + k)%nat) = Ok v →
  (retry_loop replies i n last_err tr).1 = Ok v ∧
  posts (retry_loop replies i n last_err tr).2 = (posts tr + k + 1)%nat.
Proof.
  revert i n last_err tr.
  induction k as [|k IH]; intros i n last_err tr Hk Hfail Hok.
  - destruct n as [|n]; [lia|]. simpl.
    rewrite Nat.add_0_r in Hok. rewrite Hok. simpl. split; [done | lia].
  - destruct n as [|n]; [lia|]. simpl.
    destruct (Hfail 0%nat ltac:(lia)) as [e He].
    rewrite Nat.add_0_r in He. rewrite He.
    destruct (IH (S i) n (Some e)
                (ClientTrace (S (posts tr)) (sleeps tr ++ [backoff i])))
      as [Hres Hposts].
    + lia.
    + intros j Hj. replace (S i + j)%nat with (i + S j)%nat by lia.
      apply Hfail. lia.
    + by replace (S i + k)%nat with (i + S k)%nat by lia.
    + split; [done|]. rewrite Hposts. simpl. lia.
Qed.

Lemma retry_loop_all_fail replies i n last_err tr :
  (∀ j, (j < n)%nat → fails (replies (i + j)%nat)) →
  posts (retry_loop replies i n last_err tr).2 = (posts tr + n)%nat ∧
  ∃ e, (retry_loop replies i n last_err tr).1 = Raise e ∧
       match n with
       | O => e = default TypeError last_err
       | S n' => attempt (replies (i + n')%nat) = Raise e
       end.
Proof.
  revert i last_err tr. induction n as [|n IH]; intros i last_err tr Hfail.
  - simpl. split; [lia|]. eauto.
  - simpl. destruct (Hfail 0%nat ltac:(lia)) as [e He].
    rewrite Nat.add_0_r in He. rewrite He.
    destruct (IH (S i) (Some e)
                (ClientTrace (S (posts tr)) (sleeps tr ++ [backoff i])))
      as [Hposts (e' & Hres & Hlast)].
    + intros j Hj. replace (S i + j)%nat with (i + S j)%nat by lia.
      apply Hfail. lia.
    + split; [rewrite Hposts; simpl; lia|].
      exists e'. split; [done|].
      destruct n as [|n'].
      * simpl in Hlast. rewrite Nat.add_0_r. congruence.
      * by replace (i + S n')%nat with (S i + n')%nat by lia.
Qed.

Lemma call_gemini_json_all_fail replies (retry : nat) :
  (∀ j, (j < retry)%nat → fails (replies j)) →
  ∃ e, (call_gemini_json replies retry).1 = Raise e.
Proof.
  intros Hfail.
  destruct (retry_loop_all_fail replies 0 retry None (ClientTrace 0 []) Hfail)
    as [_ (e & Hres & _)].
  by exists e.
Qed.

(** C4. A call configured for [retry] attempts posts at most [retry]
    requests. If attempt number [k] (counting from zero, [k < retry]) is
    the first one that does not fail, the call returns what that attempt
    decoded, after exactly [k + 1] posts. If all [retry] attempts fail, the
    call raises after exactly [retry] posts, and what it raises is the
    failure of the last attempt. *)
Theorem call_gemini_json_retry_bound replies (retry : nat) :
  (posts (call_gemini_json replies retry).2 ≤ retry)%nat ∧
  (∀ k v, (k < retry)%nat →
     (∀ j, (j < k)%nat → fails (replies j)) →
     attempt (replies k) = Ok v →
     (call_gemini_json replies retry).1 = Ok v ∧
     posts (call_gemini_json replies retry).2 = S k) ∧
  ((∀ j, (j < retry)%nat → fails (replies j)) →
     posts (call_gemini_json replies retry).2 = retry ∧
     ∃ e, (call_gemini_json replies retry).1 = Raise e ∧
          ∀ n', retry = S n' → attempt (replies n') = Raise e).
Proof.
  unfold call_gemini_json. split; [|split].
  - apply (retry_loop_posts replies 0 retry None (ClientTrace 0 [])).
  - intros k v Hk Hfail Hok.
    destruct (retry_loop_first_success replies 0 retry None (ClientTrace 0 [])
                k v Hk Hfail Hok) as [Hres Hposts].
    split; [done|]. rewrite Hposts. simpl. lia.
  - intros Hfail.
    destruct (retry_loop_all_fail replies 0 retry None (ClientTrace 0 []) Hfail)
      as [Hposts (e & Hres & Hlast)].
    split; [done|]. exists e. split; [done|].
    intros n' ->. exact Hlast.
Qed.

End OracleClientFacts.

(** Two connection errors, then the scenario's reply as message text. *)
Definition flaky_replies (k : nat) : http_reply :=
  match k with
  | 0%nat | 1%nat => PostRaises (RequestException k)
  | _ => Response 200 (Some (completion (JStr scenario_text)))
  end.

(** With three attempts the third one's result comes back. *)
Lemma call_gemini_json_retry_bound_witness :
  (call_gemini_json (H := mock_runtime) flaky_replies 3).1 = Ok scenario_reply ∧
  posts (call_gemini_json (H := mock_runtime) flaky_replies 3).2 = 3%nat.
Proof.
  apply (proj1 (proj2 (call_gemini_json_retry_bound (H := mock_runtime)
                         flaky_replies 3)) 2%nat scenario_reply).
  - lia.
  - intros j Hj. exists (RequestException j).
    destruct j as [|[|j]]; [reflexivity | reflexivity | lia].
  - reflexivity.
Defined.

(** ** The reconciler *)

(** The three category codes, and the four codes a labelled row can hold. *)
Definition valid_type (z : Z) : Prop := z = 0 ∨ z = 1 ∨ z = 2.

Definition terminal (t : option Z) : Prop :=
  t = Some 0 ∨ t = Some 1 ∨ t = Some 2 ∨ t = Some (-1).

(** The integer that an entry's [id] equals, if it equals one: a JSON
    integer, or a float without fractional part. *)
Definition item_key (item : json) : option Z :=
  match item with
  | JObj fields =>
      match default JNull (assoc (utf8 "id") fields) with
      | JInt k => Some k
      | JFloat (FFinite q) =>
          if decide (Z.rem (Qnum q) (Z.pos (Qden q)) = 0)
          then Some (Z.quot (Qnum q) (Z.pos (Qden q))) else None
      | _ => None
      end
  | _ => None
  end.

(** [item.get("type")] of a dict entry. *)
Definition item_type (item : json) : json :=
  match item with
  | JObj fields => default JNull (assoc (utf8 "type") fields)
  | _ => JNull
  end.

(** An id in the range in which an integer and a double are the same
    number. *)
Definition exact_id (k : Z) : Prop := Z.abs k < 2 ^ 53.

(** [o'] is [o] in every column but [number_type]. *)
Definition same_columns (o o' : occurrence) : Prop :=
  source_id o' = source_id o ∧
  sentence o' = sentence o ∧
  number_text o' = number_text o ∧
  number_start o' = number_start o ∧
  number_end o' = number_end o.

(** The type a row ends with after a list of statements, from the type it
    starts with. *)
Definition final_type (us : list update_stmt) (k : Z) (t0 : option Z)
    : option Z :=
  foldl (λ t u, if selects u k then Some (set_number_type u) else t) t0 us.

Section Float8.
Implicit Types (k i : Z) (p : sql_param).

Lemma float8_exact k : exact_id k → float8 k = k.
Proof.
  unfold exact_id, float8. intros Hk.
  assert (He : Z.log2 (Z.abs k) - 52 ≤ 0).
  { destruct (decide (Z.abs k = 0)) as [-> | Hne]; [simpl; lia|].
    assert (Z.log2 (Z.abs k) < 53); [|lia].
    apply Z.log2_lt_pow2; lia. }
  apply Z.leb_le in He. by rewrite He.
Qed.

Lemma float8_large k : 2 ^ 53 ≤ Z.abs k → 2 ^ 53 ≤ Z.abs (float8 k).
Proof.
  intros Hk. unfold float8.
  assert (Ha : 0 < Z.abs k) by lia.
  assert (Hlog : 53 ≤ Z.log2 (Z.abs k)) by (apply Z.log2_le_pow2; lia).
  set (a := Z.abs k) in *. set (e := Z.log2 a - 52).
  assert (He : 1 ≤ e) by (unfold e; lia).
  destruct (Z.leb_spec e 0) as [?|_]; [lia|]. cbv zeta.
  set (m := Z.shiftr a e).
  set (m' := if (Z.shiftl 1 (e - 1) <? Z.land a (Z.ones e))
                 || ((Z.land a (Z.ones e) =? Z.shiftl 1 (e - 1)) && Z.odd m)
              then m + 1 else m).
  assert (Hpe : 2 ≤ 2 ^ e).
  { change 2 with (2 ^ 1) at 1. apply Z.pow_le_mono_r; lia. }
  assert (Hm : 2 ^ 52 ≤ m).
  { unfold m. rewrite Z.shiftr_div_pow2 by lia.
    apply Z.div_le_lower_bound; [lia|].
    rewrite <- Z.pow_add_r by lia.
    replace (e + 52) with (Z.log2 a) by (unfold e; lia).
    apply Z.log2_spec. lia. }
  assert (Hm' : m ≤ m') by (unfold m'; destruct (_ || _); lia).
  rewrite Z.shiftl_mul_pow2 by lia.
  assert (Hs : Z.abs (Z.sgn k) = 1) by (destruct k; simpl in *; lia).
  rewrite Z.abs_mul, Hs, Z.mul_1_l.
  change (2 ^ 53) with (2 ^ 52 * 2) in *. change (2 ^ 52) with 4503599627370496 in *.
  nia.
Qed.

Lemma float8_exact_inv k i : exact_id i → float8 k = float8 i → k = i.
Proof.
  intros Hi. rewrite (float8_exact i Hi).
  destruct (decide (exact_id k)) as [Hk | Hk].
  - by rewrite (float8_exact k Hk).
  - intros Heq. unfold exact_id in *.
    pose proof (float8_large k ltac:(lia)) as Hl. rewrite Heq in Hl. lia.
Qed.

Lemma param_selects_self p : param_selects p (param_value p) = true.
Proof. destruct p; simpl; by apply bool_decide_eq_true. Qed.

Lemma param_selects_exact p k :
  exact_id (param_value p) → param_selects p k = true → k = param_value p.
Proof.
  destruct p as [rid|rid]; simpl; intros Hp Hsel;
    apply bool_decide_eq_true in Hsel; [done|].
  by apply float8_exact_inv.
Qed.

End Float8.

Section Statements.
Implicit Types (tbl : gmap Z occurrence) (us vs : list update_stmt) (k : Z).

Lemma with_number_type_same o : with_number_type (number_type o) o = o.
Proof. by destruct o. Qed.

Lemma lookup_exec_updates tbl us k :
  foldl exec_update tbl us !! k =
  (λ o, with_number_type (final_type us k (number_type o)) o) <$> tbl !! k.
Proof.
  revert tbl. induction us as [|u us IH]; intros tbl; simpl.
  - destruct (tbl !! k) as [o|]; simpl; [|done].
    by rewrite with_number_type_same.
  - rewrite IH. unfold exec_update. rewrite map_lookup_imap.
    unfold final_type. simpl.
    destruct (tbl !! k) as [o|]; simpl; [|done].
    by destruct (selects u k).
Qed.

(** What a row holds after a list of statements. *)
Lemma lookup_exec_updates_Some tbl us k o :
  tbl !! k = Some o →
  ∃ o', foldl exec_update tbl us !! k = Some o' ∧
        number_type o' = final_type us k (number_type o) ∧
        same_columns o o'.
Proof.
  intros Ho. rewrite lookup_exec_updates, Ho. simpl.
  eexists. split; [done|]. split; [done|]. by repeat split.
Qed.

Lemma final_type_app us vs k t :
  final_type (us ++ vs) k t = final_type vs k (final_type us k t).
Proof. unfold final_type. by rewrite foldl_app. Qed.

Lemma final_type_untouched us k t :
  (∀ u, u ∈ us → selects u k = false) → final_type us k t = t.
Proof.
  revert t. induction us as [|u us IH]; intros t Hus; [done|].
  unfold final_type. simpl. rewrite (Hus u) by left.
  apply IH. intros u' Hu'. apply Hus. by right.
Qed.

Lemma final_type_untouched_fmap tbl us k :
  (∀ u, u ∈ us → selects u k = false) →
  (λ o, with_number_type (final_type us k (number_type o)) o) <$> tbl !! k
  = tbl !! k.
Proof.
  intros Hus. destruct (tbl !! k) as [o|]; simpl; [|done].
  by rewrite final_type_untouched, with_number_type_same.
Qed.

Lemma final_type_terminal us k t :
  (∀ u, u ∈ us → terminal (Some (set_number_type u))) →
  terminal t ∨ (∃ u, u ∈ us ∧ selects u k = true) →
  terminal (final_type us k t).
Proof.
  revert t. induction us as [|u us IH]; intros t Hval Ht.
  - destruct Ht as [Ht | (u & Hu & _)]; [done | by apply elem_of_nil in Hu].
  - unfold final_type. simpl. apply IH.
    + intros u' Hu'. apply Hval. by right.
    + destruct (selects u k) eqn:Hk.
      * left. apply Hval. left.
      * destruct Ht as [Ht | (u' & Hu' & Hk')]; [by left|].
        apply elem_of_cons in Hu' as [-> | Hu']; [congruence|]. right. eauto.
Qed.

Lemma final_type_mark_failed batch k t :
  final_type (mark_failed batch) k t =
  if decide (k ∈ row_id <$> batch) then Some (-1) else t.
Proof.
  revert t. induction batch as [|r batch IH]; intros t.
  - destruct (decide (k ∈ row_id <$> [])) as [Hin|]; [|done].
    by apply elem_of_nil in Hin.
  - change (final_type (mark_failed (r :: batch)) k t) with
      (final_type (mark_failed batch) k
         (if bool_decide (k = row_id r) then Some (-1) else t)).
    rewrite IH. rewrite fmap_cons.
    destruct (decide (k ∈ row_id <$> batch)) as [Hin | Hout].
    + by rewrite decide_True by (by right).
    + destruct (decide (k = row_id r)) as [-> | Hr].
      * by rewrite bool_decide_eq_true_2, decide_True by (done || left).
      * rewrite bool_decide_eq_false_2 by done. rewrite decide_False; [done|].
        intros [->|]%elem_of_cons; done.
Qed.

Lemma final_type_last us1 us2 (u : update_stmt) k (t : option Z) :
  selects u k = true →
  (∀ u', u' ∈ us2 → selects u' k = false) →
  final_type (us1 ++ u :: us2) k t = Some (set_number_type u).
Proof.
  intros Hu Hus2. rewrite final_type_app.
  change (u :: us2) with ([u] ++ us2).
  rewrite final_type_app, (final_type_untouched us2) by done.
  unfold final_type. simpl. by rewrite Hu.
Qed.

Lemma final_type_cases us k t :
  (∀ u, u ∈ us → terminal (Some (set_number_type u))) →
  final_type us k t = t ∨ terminal (final_type us k t).
Proof.
  intros Hval.
  destruct (decide (Exists (λ u, selects u k = true) us)) as [Hex|Hnex].
  - right. apply final_type_terminal; [done|]. right.
    apply Exists_exists in Hex. done.
  - left. apply final_type_untouched. intros u Hu.
    destruct (selects u k) eqn:Hk; [|done]. destruct Hnex.
    apply Exists_exists. eauto.
Qed.

End Statements.

Lemma id_map_lookup (batch : list label_row) (k : Z) :
  is_Some (id_map batch !! k) ↔ k ∈ row_id <$> batch.
Proof.
  unfold id_map.
  assert (Hgen : ∀ m : gmap Z label_row,
            is_Some (foldl (λ m r, <[row_id r := r]> m) m batch !! k) ↔
            is_Some (m !! k) ∨ k ∈ row_id <$> batch).
  { induction batch as [|r batch IH]; intros m; simpl.
    - rewrite elem_of_nil. tauto.
    - rewrite IH, lookup_insert_is_Some', elem_of_cons. intuition congruence. }
  rewrite Hgen, lookup_empty. split; [intros [[? ?]|?]; done | by right].
Qed.

(** The parameter an entry's [id] makes for the [UPDATE]: [item_key] with
    the kind of number kept. *)
Definition item_param (item : json) : option sql_param :=
  match item with
  | JObj fields =>
      match default JNull (assoc (utf8 "id") fields) with
      | JInt k => Some (IntParam k)
      | JFloat (FFinite q) =>
          if decide (Z.rem (Qnum q) (Z.pos (Qden q)) = 0)
          then Some (FloatParam (Z.quot (Qnum q) (Z.pos (Qden q)))) else None
      | _ => None
      end
  | _ => None
  end.

Lemma item_key_param item : item_key item = param_value <$> item_param item.
Proof.
  unfold item_key, item_param. destruct item as [| | | | | |fields]; try done.
  destruct (default JNull (assoc (utf8 "id") fields)) as [| | |[q| |]| | |];
    try done.
  by case_decide.
Qed.

(** An entry the loop body handles without raising: a dict whose [id] is
    hashable and is not a bool equal to an id of the batch. *)
Definition entry_ok (batch : list label_row) (item : json) : Prop :=
  match item with
  | JObj fields =>
      match default JNull (assoc (utf8 "id") fields) with
      | JArr _ | JObj _ => False
      | JBool b => (if b then 1 else 0) ∉ row_id <$> batch
      | _ => True
      end
  | _ => False
  end.

Section ReconcilerFacts.
Context `{!PyRuntime}.
Implicit Types (batch : list label_row) (tbl : gmap Z occurrence)
  (items : list json) (us : list update_stmt) (k : Z).

(** What [decode_type] returns. *)
Lemma decode_type_cases ty :
  (∃ z, py_int ty = Ok z ∧ valid_type z ∧ decode_type ty = z) ∨
  ((∀ z, py_int ty = Ok z → ¬ valid_type z) ∧ decode_type ty = -1).
Proof.
  unfold decode_type. destruct (py_int ty) as [z|e].
  - case_decide as Hv.
    + left. by exists z.
    + right. split; [|done]. intros z' [= <-]. exact Hv.
  - right. split; [|done]. intros z' [=].
Qed.

Lemma decode_type_terminal ty : terminal (Some (decode_type ty)).
Proof.
  destruct (decode_type_cases ty) as [(z & _ & Hv & ->) | [_ ->]].
  - unfold terminal. destruct Hv as [-> | [-> | ->]]; tauto.
  - unfold terminal. tauto.
Qed.

(** The statement an entry gives rise to when its iteration does not raise. *)
Definition item_effect (m : gmap Z label_row) (item : json)
    : list update_stmt :=
  match item_param item with
  | Some p =>
      if decide (is_Some (m !! param_value p))
      then [UpdateWhere (decode_type (item_type item)) p] else []
  | None => []
  end.

Lemma item_updates_Ok m item us :
  item_updates m item = Ok us → us = item_effect m item.
Proof.
  unfold item_updates, item_effect, item_param, item_type.
  destruct item as [| | | | | |fields]; try discriminate. simpl.
  destruct (default JNull (assoc (utf8 "id") fields))
    as [|b|z|[q| |neg]|s|l|l]; simpl; try discriminate.
  - intros [= <-]. done.
  - destruct (decide (is_Some (m !! (if b then 1 else 0)))); simpl;
      [discriminate | by intros [= <-]].
  - intros [= <-]. by destruct (decide (is_Some (m !! z))).
  - destruct (decide (Z.rem (Qnum q) (Z.pos (Qden q)) = 0)); simpl.
    + intros [= <-].
      by destruct (decide (is_Some (m !! Z.quot (Qnum q) (Z.pos (Qden q))))).
    + by intros [= <-].
  - by intros [= <-].
  - by intros [= <-].
  - by intros [= <-].
Qed.

Lemma results_updates_Ok m items us :
  results_updates m items = Ok us → us = items ≫= item_effect m.
Proof.
  revert us. induction items as [|item items IH]; intros us; simpl.
  - by intros [= <-].
  - destruct (item_updates m item) as [us1|] eqn:H1; simpl; [|discriminate].
    destruct (results_updates m items) as [us2|]; simpl; [|discriminate].
    intros [= <-]. apply item_updates_Ok in H1 as ->. by rewrite (IH us2).
Qed.

(** The loop over well-formed entries does not raise. *)
Lemma item_updates_total batch item :
  entry_ok batch item → ∃ us, item_updates (id_map batch) item = Ok us.
Proof.
  unfold entry_ok, item_updates.
  destruct item as [| | | | | |fields]; try done. simpl.
  destruct (default JNull (assoc (utf8 "id") fields))
    as [|b|z|[q| |neg]|s|l|l]; simpl; try done; eauto.
  - intros Hb. rewrite decide_False; simpl; [eauto|].
    by rewrite id_map_lookup.
  - case_decide; simpl; eauto.
Qed.

Lemma results_updates_total batch items :
  Forall (entry_ok batch) items →
  results_updates (id_map batch) items
  = Ok (items ≫= item_effect (id_map batch)).
Proof.
  intros Hok.
  assert (Hex : ∃ us, results_updates (id_map batch) items = Ok us).
  { induction Hok as [|item items Hitem _ [vs IH]]; simpl; [eauto|].
    destruct (item_updates_total batch item Hitem) as [us ->]. simpl.
    rewrite IH. simpl. eauto. }
  destruct Hex as [us Hus]. rewrite Hus.
  by apply results_updates_Ok in Hus as ->.
Qed.

Lemma batch_updates_results batch fields items :
  default (JArr []) (assoc (utf8 "results") fields) = JArr items →
  batch_updates batch (JObj fields) = results_updates (id_map batch) items.
Proof. unfold batch_updates. simpl. by intros ->. Qed.

Lemma batch_updates_not_list batch fields v :
  assoc (utf8 "results") fields = Some v → (∀ items, v ≠ JArr items) →
  batch_updates batch (JObj fields) = Ok (mark_failed batch).
Proof.
  unfold batch_updates. simpl. intros -> Hv. simpl.
  destruct v; try done. by destruct (Hv items).
Qed.

(** The statements of a batch carry ids of that batch only, with one of
    the four codes. *)
Lemma item_effect_sound m item u :
  u ∈ item_effect m item →
  is_Some (m !! where_id u) ∧ item_key item = Some (where_id u) ∧
  set_number_type u = decode_type (item_type item).
Proof.
  unfold item_effect. rewrite item_key_param.
  destruct (item_param item) as [p|]; [|by intros ?%elem_of_nil].
  case_decide; [|by intros ?%elem_of_nil].
  intros ->%list_elem_of_singleton. done.
Qed.

(** An entry that carries the id of a record of the batch gives one
    statement, which selects that record's row. *)
Lemma item_effect_hit batch item k :
  item_key item = Some k → k ∈ row_id <$> batch →
  ∃ u, item_effect (id_map batch) item = [u] ∧ selects u k = true ∧
       set_number_type u = decode_type (item_type item).
Proof.
  rewrite item_key_param. unfold item_effect.
  destruct (item_param item) as [p|]; [|done]. simpl.
  intros [= <-] Hin. rewrite decide_True by (by apply id_map_lookup).
  eexists. split; [done|]. split; [apply param_selects_self | done].
Qed.

Lemma batch_updates_sound batch api us u :
  batch_updates batch api = Ok us → u ∈ us →
  where_id u ∈ row_id <$> batch ∧ terminal (Some (set_number_type u)).
Proof.
  assert (Hfailed : u ∈ mark_failed batch →
            where_id u ∈ row_id <$> batch ∧ terminal (Some (set_number_type u))).
  { unfold mark_failed. intros (r & -> & Hr)%list_elem_of_fmap.
    unfold where_id, Update. simpl.
    split; [by apply list_elem_of_fmap_2 | unfold terminal; tauto]. }
  unfold batch_updates.
  destruct api as [| | | | | |fields]; simpl; try discriminate.
  - intros [= <-]. exact Hfailed.
  - destruct (default (JArr []) (assoc (utf8 "results") fields)) eqn:Hres;
      try (intros [= <-]; exact Hfailed).
    intros ->%results_updates_Ok (item & Hu & _)%list_elem_of_bind.
    apply item_effect_sound in Hu as (Hm & _ & ->).
    split; [by apply id_map_lookup | apply decode_type_terminal].
Qed.

(** With the ids of the batch in the exact range, a statement of the
    batch selects the one row whose id it carries. *)
Lemma batch_updates_selects batch api us u k :
  batch_updates batch api = Ok us → u ∈ us →
  (∀ r, r ∈ batch → exact_id (row_id r)) →
  selects u k = true → k = where_id u ∧ k ∈ row_id <$> batch.
Proof.
  intros Hus Hu Hexact Hsel.
  destruct (batch_updates_sound _ _ _ _ Hus Hu) as [Hin _].
  assert (Hk : k = where_id u).
  { apply param_selects_exact; [|done].
    apply list_elem_of_fmap in Hin as (r & Hr & Hrin).
    unfold where_id in Hr. rewrite Hr. by apply Hexact. }
  split; [done | by rewrite Hk].
Qed.

End ReconcilerFacts.

Section PartialSuccess.
Context `{!PyRuntime}.
Implicit Types (batch : list label_row) (tbl : gmap Z occurrence)
  (items : list json).

Lemma reconcile_Ok batch api tbl tbl' :
  reconcile batch api tbl = Ok tbl' ↔
  ∃ us, batch_updates batch api = Ok us ∧ tbl' = foldl exec_update tbl us.
Proof.
  unfold reconcile. destruct (batch_updates batch api) as [us|e]; simpl.
  - split; [intros [= <-]; eauto | intros (us' & [= <-] & ->); done].
  - split; [done | intros (us' & [=] & _)].
Qed.

(** Entries that do not carry the id [k] give no statement that selects
    the row [k]. *)
Lemma effects_miss batch items k :
  (∀ r, r ∈ batch → exact_id (row_id r)) →
  (∀ item, item ∈ items → item_key item ≠ Some k) →
  ∀ u, u ∈ items ≫= item_effect (id_map batch) → selects u k = false.
Proof.
  intros Hexact Hmiss u (item & Hu & Hitem)%list_elem_of_bind.
  apply item_effect_sound in Hu as (Hm & Hkey & _).
  destruct (selects u k) eqn:Hsel; [|done].
  destruct (Hmiss item Hitem). rewrite Hkey. f_equal. symmetry.
  apply param_selects_exact; [|done].
  apply id_map_lookup, list_elem_of_fmap in Hm as (r & Hr & Hrin).
  unfold where_id in Hr. rewrite Hr. by apply Hexact.
Qed.


End PartialSuccess.


(** The table after the scenario's reply has been applied to [three_rows]. *)
Definition three_after : gmap Z occurrence :=
  foldl exec_update three_tbl [Update 1 1; Update 0 2].

(** Ids that are checked to be in the exact range by evaluation. *)
Lemma exact_ids_check (batch : list label_row) :
  forallb (λ r, Z.abs (row_id r) <? 2 ^ 53) batch = true →
  ∀ r, r ∈ batch → exact_id (row_id r).
Proof.
  intros Hall r Hr. rewrite forallb_forall in Hall.
  apply list_elem_of_In in Hr. specialize (Hall _ Hr). unfold exact_id. lia.
Qed.


(** ** Whole-batch failures *)

(** The response is one the loop body treats as a failed call: JSON
    [null], or an object whose [results] member is present and is not a
    list. *)
Definition fails_whole_batch (api_result : json) : Prop :=
  api_result = JNull ∨
  ∃ fields v, api_result = JObj fields ∧
    assoc (utf8 "results") fields = Some v ∧ ∀ items, v ≠ JArr items.

Section WholeBatch.
Context `{!PyRuntime}.
Implicit Types (batch : list label_row) (tbl : gmap Z occurrence).

(** A failed call marks each row of the batch and nothing else. *)
Lemma reconcile_failed batch tbl :
  reconcile batch JNull tbl = Ok (foldl exec_update tbl (mark_failed batch)) ∧
  ∀ k, foldl exec_update tbl (mark_failed batch) !! k =
       if decide (k ∈ row_id <$> batch)
       then with_number_type (Some (-1)) <$> tbl !! k
       else tbl !! k.
Proof.
  split; [done|]. intros k.
  rewrite lookup_exec_updates.
  destruct (tbl !! k) as [o|]; simpl; [|by case_decide].
  rewrite final_type_mark_failed. case_decide; [done|].
  by rewrite with_number_type_same.
Qed.

Lemma mark_failed_rows batch tbl :
  (∀ r o, r ∈ batch → tbl !! row_id r = Some o →
     ∃ o', foldl exec_update tbl (mark_failed batch) !! row_id r = Some o' ∧
           number_type o' = Some (-1) ∧ same_columns o o') ∧
  (∀ k, k ∉ row_id <$> batch →
     foldl exec_update tbl (mark_failed batch) !! k = tbl !! k).
Proof.
  split.
  - intros r o Hr Ho.
    destruct (lookup_exec_updates_Some tbl (mark_failed batch) _ o Ho)
      as (o' & Ho' & Hty & Hcols).
    exists o'. split; [done|]. split; [|done].
    rewrite Hty, final_type_mark_failed, decide_True; [done|].
    by apply list_elem_of_fmap_2.
  - intros k Hk. destruct (reconcile_failed batch tbl) as [_ Hlook].
    by rewrite Hlook, decide_False.
Qed.

Lemma fails_whole_batch_updates batch api :
  fails_whole_batch api → batch_updates batch api = Ok (mark_failed batch).
Proof.
  intros [-> | (fields & v & -> & Hv & Hnl)]; [done|].
  by apply (batch_updates_not_list _ _ v).
Qed.


End WholeBatch.



(** ** The labeling run *)

(** Two tables hold the same rows outside the given ids. *)
Definition agree_off (ids : list Z) (t1 t2 : gmap Z occurrence) : Prop :=
  ∀ k, k ∉ ids → t1 !! k = t2 !! k.

(** Two runs end the same way, with tables that agree outside the given
    ids. *)
Definition same_outcome_off (ids : list Z)
    (r1 r2 : run_result (gmap Z occurrence)) : Prop :=
  match r1, r2 with
  | Finished t1, Finished t2 => agree_off ids t1 t2
  | RolledBack e1 t1, RolledBack e2 t2 => e1 = e2 ∧ agree_off ids t1 t2
  | _, _ => False
  end.

(** The response answers for the row [k]: the call failed, or [results]
    is not a list, or the list has an entry with that id. *)
Definition answered (api_result : json) (k : Z) : Prop :=
  api_result = JNull ∨
  ∃ fields, api_result = JObj fields ∧
    ((∃ v, assoc (utf8 "results") fields = Some v ∧ ∀ items, v ≠ JArr items) ∨
     (∃ items item,
        default (JArr []) (assoc (utf8 "results") fields) = JArr items ∧
        item ∈ items ∧ item_key item = Some k)).

(** The ids of the rows of a future's batch. *)
Definition future_ids (c : list label_row * json) : list Z := row_id <$> c.1.

(** Every id of the table is in the exact range. *)
Definition exact_ids (tbl : gmap Z occurrence) : Prop :=
  ∀ k, is_Some (tbl !! k) → exact_id k.

Section Run.
Context `{!PyRuntime}.
Implicit Types (batch b : list label_row) (tbl : gmap Z occurrence)
  (completed pre post : list (list label_row * json)) (k : Z).

Lemma agree_off_exec ids t1 t2 us :
  agree_off ids t1 t2 →
  agree_off ids (foldl exec_update t1 us) (foldl exec_update t2 us).
Proof. intros Ha k Hk. by rewrite !lookup_exec_updates, (Ha k Hk). Qed.

Lemma same_outcome_off_refl ids r : same_outcome_off ids r r.
Proof. destruct r; simpl; [done | split; done]. Qed.

(** The statements of a batch do not depend on the table, so runs from
    tables that agree end alike. *)
Lemma label_loop_agree ids completed t1 t2 :
  agree_off ids t1 t2 →
  same_outcome_off ids (label_loop completed t1) (label_loop completed t2).
Proof.
  revert t1 t2. induction completed as [|[b a] rest IH]; intros t1 t2 Ha.
  - done.
  - simpl. unfold reconcile.
    destruct (batch_updates b a) as [us|e]; simpl.
    + apply IH. by apply agree_off_exec.
    + done.
Qed.

Lemma label_loop_skip_failed pre b post tbl :
  same_outcome_off (row_id <$> b)
    (label_loop (pre ++ (b, JNull) :: post) tbl)
    (label_loop (pre ++ post) tbl).
Proof.
  revert tbl. induction pre as [|[b' a'] pre IH]; intros tbl.
  - simpl. apply label_loop_agree. intros k Hk.
    destruct (reconcile_failed b tbl) as [_ Hlook].
    by rewrite Hlook, decide_False.
  - simpl. destruct (reconcile b' a' tbl) as [t1|e]; [apply IH|].
    simpl. done.
Qed.

Lemma label_loop_app pre post tbl tbl' :
  label_loop (pre ++ post) tbl = Finished tbl' →
  ∃ t1, label_loop pre tbl = Finished t1 ∧ label_loop post t1 = Finished tbl'.
Proof.
  revert tbl. induction pre as [|[b a] pre IH]; intros tbl; simpl.
  - eauto.
  - destruct (reconcile b a tbl) as [t1|e]; [apply IH | done].
Qed.

(** A finished run changes nothing but the [number_type] of rows. *)
Lemma label_loop_same_row completed tbl tbl' k t :
  label_loop completed tbl = Finished tbl' →
  with_number_type t <$> tbl' !! k = with_number_type t <$> tbl !! k.
Proof.
  revert tbl. induction completed as [|[b a] rest IH]; intros tbl; simpl.
  - by intros [= <-].
  - destruct (reconcile b a tbl) as [t1|e] eqn:Hrec; [|done].
    intros Hrest. rewrite (IH _ Hrest).
    apply reconcile_Ok in Hrec as (us & _ & ->).
    rewrite lookup_exec_updates. by destruct (tbl !! k).
Qed.

Lemma label_loop_same_columns completed tbl tbl' k o :
  label_loop completed tbl = Finished tbl' →
  tbl !! k = Some o →
  ∃ o', tbl' !! k = Some o' ∧ same_columns o o'.
Proof.
  intros Hrun Ho.
  pose proof (label_loop_same_row _ _ _ k None Hrun) as Hrow.
  rewrite Ho in Hrow. destruct (tbl' !! k) as [o'|]; [|done].
  exists o'. split; [done|]. simpl in Hrow. injection Hrow as ?????. done.
Qed.

(** With the ids of its batches in the exact range, a finished run
    leaves alone the rows that belong to none of its batches. *)
Lemma label_loop_untouched completed tbl tbl' k :
  label_loop completed tbl = Finished tbl' →
  (∀ c r, c ∈ completed → r ∈ c.1 → exact_id (row_id r)) →
  (∀ c, c ∈ completed → k ∉ row_id <$> c.1) →
  tbl' !! k = tbl !! k.
Proof.
  revert tbl. induction completed as [|[b a] rest IH]; intros tbl; simpl.
  - by intros [= <-].
  - destruct (reconcile b a tbl) as [t1|e] eqn:Hrec; [|done].
    intros Hrest Hexact Hout.
    rewrite (IH _ Hrest)
      by (intros; (eapply Hexact || apply Hout); try done; by right).
    apply reconcile_Ok in Hrec as (us & Hus & ->).
    rewrite lookup_exec_updates. apply final_type_untouched_fmap.
    intros u Hu. destruct (selects u k) eqn:Hsel; [|done].
    destruct (batch_updates_selects b a us u k Hus Hu) as [_ Hin]; [|done|].
    + intros r Hr. apply (Hexact (b, a)); [left | done].
    + destruct (Hout (b, a)); [left | done].
Qed.

Lemma answered_statement b a us k :
  batch_updates b a = Ok us → k ∈ row_id <$> b → answered a k →
  ∃ u, u ∈ us ∧ selects u k = true.
Proof.
  intros Hus Hk Hans.
  assert (Hfailed : ∃ u, u ∈ mark_failed b ∧ selects u k = true).
  { apply list_elem_of_fmap in Hk as (r & -> & Hr).
    exists (Update (-1) (row_id r)). split.
    - unfold mark_failed.
      by apply (list_elem_of_fmap_2 (λ r, Update (-1) (row_id r))).
    - by apply bool_decide_eq_true. }
  destruct Hans as [-> | (fields & -> & [(v & Hv & Hnl) | (items & item & Hres & Hitem & Hkey)])].
  - simpl in Hus. by injection Hus as <-.
  - rewrite (batch_updates_not_list _ _ _ Hv Hnl) in Hus. by injection Hus as <-.
  - rewrite (batch_updates_results _ _ _ Hres) in Hus.
    apply results_updates_Ok in Hus as ->.
    destruct (item_effect_hit b item k Hkey Hk) as (u & Heff & Hsel & _).
    exists u. split; [|done].
    apply list_elem_of_bind. exists item. split; [|done].
    rewrite Heff. left.
Qed.

(** After a finished run, a row is labelled when it was labelled before
    or when a batch that holds it was answered for it. *)
Lemma label_loop_terminal completed tbl tbl' k o :
  label_loop completed tbl = Finished tbl' →
  tbl !! k = Some o →
  ∃ o', tbl' !! k = Some o' ∧
    (terminal (number_type o) ∨
     (∃ c, c ∈ completed ∧ k ∈ row_id <$> c.1 ∧ answered c.2 k) →
     terminal (number_type o')).
Proof.
  revert tbl o. induction completed as [|[b a] rest IH]; intros tbl o; simpl.
  - intros [= <-] Ho. exists o. split; [done|].
    intros [Ht | (c & Hc & _)]; [done | by apply elem_of_nil in Hc].
  - destruct (reconcile b a tbl) as [t1|e] eqn:Hrec; [|done].
    intros Hrest Ho.
    apply reconcile_Ok in Hrec as (us & Hus & ->).
    assert (Ho1 : foldl exec_update tbl us !! k =
                  Some (with_number_type (final_type us k (number_type o)) o))
      by (by rewrite lookup_exec_updates, Ho).
    destruct (IH _ _ Hrest Ho1) as (o' & Ho' & Hterm).
    exists o'. split; [done|]. intros Hcase. apply Hterm. simpl.
    assert (Hval : ∀ u, u ∈ us → terminal (Some (set_number_type u)))
      by (intros u Hu; by destruct (batch_updates_sound _ _ _ _ Hus Hu)).
    destruct Hcase as [Ht | (c & Hc & Hk & Hans)].
    + left. apply final_type_terminal; [done | by left].
    + apply elem_of_cons in Hc as [-> | Hc].
      * left. apply final_type_terminal; [done|]. right.
        by apply (answered_statement b a).
      * right. eauto.
Qed.

Lemma process_batch_api_task_batch svc b : (process_batch_api_task svc b).1 = b.
Proof.
  unfold process_batch_api_task.
  by destruct (call_gemini_json (svc b) MODEL_RETRIES).1.
Qed.

End Run.

(** What [fetch_rows_to_label] returns are rows of the table without label. *)
Lemma fetch_rows_to_label_unlabeled (tbl : gmap Z occurrence) (r : label_row) :
  r ∈ fetch_rows_to_label tbl →
  ∃ o, tbl !! row_id r = Some o ∧ number_type o = None.
Proof.
  unfold fetch_rows_to_label.
  intros ([k o] & -> & Hkv)%list_elem_of_fmap.
  rewrite merge_sort_Permutation in Hkv.
  apply list_elem_of_In, filter_In in Hkv as [Hin Hun].
  apply list_elem_of_In, elem_of_map_to_list in Hin.
  exists o. split; [done|].
  unfold is_unlabeled in Hun. simpl in Hun. by destruct (number_type o).
Qed.

Lemma make_batches_member {A} (n : nat) (xs b : list A) (x : A) :
  (1 ≤ n)%nat → b ∈ make_batches n xs → x ∈ b → x ∈ xs.
Proof.
  intros Hn Hb Hx. rewrite <- (make_batches_concat xs n Hn).
  apply list_elem_of_In, in_concat. exists b.
  split; by apply list_elem_of_In.
Qed.

Section Coverage.
Context `{!PyRuntime}.

(** C2, as the code has it. In a run that finishes, every record that was
    fetched as unlabeled and put in a batch ends with a [number_type] of
    0, 1, 2 or [-1] provided its batch was answered for it: the call
    failed, or the response's [results] is not a list, or the result list
    has an entry with the record's id. *)
Theorem labeling_run_coverage (svc : oracle)
    (as_completed : list (list label_row * json) → list (list label_row * json))
    (db db' : database) :
  (∀ futures, as_completed futures ≡ₚ futures) →
  process_all svc as_completed db = Finished db' →
  ∀ b r,
    b ∈ make_batches BATCH_SIZE
          (fetch_rows_to_label (number_level_analysis (extraction_step db))) →
    r ∈ b →
    (∃ o, number_level_analysis (extraction_step db) !! row_id r = Some o ∧
          number_type o = None) ∧
    (answered (process_batch_api_task svc b).2 (row_id r) →
     ∃ o', number_level_analysis db' !! row_id r = Some o' ∧
           terminal (number_type o')).
Proof.
  intros Hperm Hrun b r Hb Hr.
  assert (Hrow : r ∈ fetch_rows_to_label
                       (number_level_analysis (extraction_step db))).
  { apply (make_batches_member BATCH_SIZE _ b); [unfold BATCH_SIZE; lia|done|done]. }
  destruct (fetch_rows_to_label_unlabeled _ _ Hrow) as (o & Ho & Hnull).
  split; [eauto|]. intros Hans.
  unfold process_all in Hrun.
  destruct (fetch_rows_to_label (number_level_analysis (extraction_step db)))
    as [|r0 rows] eqn:Hrows; [by apply elem_of_nil in Hrow|].
  destruct (label_loop _ _) as [tbl'|e tbl'] eqn:Hloop; [|done].
  injection Hrun as <-. simpl.
  destruct (label_loop_terminal _ _ _ _ _ Hloop Ho) as (o' & Ho' & Hterm).
  exists o'. split; [done|]. apply Hterm. right.
  exists (process_batch_api_task svc b). split; [|split; [|done]].
  - rewrite Hperm. by apply list_elem_of_fmap_2.
  - rewrite process_batch_api_task_batch. by apply list_elem_of_fmap_2.
Qed.

End Coverage.

(** A service that answers every batch for id 1 only, as message text
    already decoded. *)
Definition partial_svc : oracle := λ _ _,
  Response 200
    (Some (completion (JObj [(utf8 "results", JArr [entry (JInt 1) (JInt 1)])]))).

(** C2 fails as stated. The scenario's two occurrences form one batch; the
    response answers id 1 only; the run finishes, and the occurrence with
    id 2, unlabeled before and batched, is still unlabeled afterwards. *)
Lemma coverage_counterexample :
  make_batches BATCH_SIZE
    (fetch_rows_to_label (number_level_analysis (extraction_step scenario_db)))
  = [[LabelRow 1 (utf8 "三楼住着一百人") (utf8 "三") 0 1;
      LabelRow 2 (utf8 "三楼住着一百人") (utf8 "一百") 4 6]] ∧
  ∃ db',
    process_all (H := mock_runtime) partial_svc (λ futures, futures) scenario_db
    = Finished db' ∧
    number_type <$> number_level_analysis db' !! 1 = Some (Some 1) ∧
    number_type <$> number_level_analysis db' !! 2 = Some None.
Proof.
  split; [vm_compute; reflexivity|].
  eexists. split; [vm_compute; reflexivity|].
  split; vm_compute; reflexivity.
Qed.

(** The scenario's two rows, and its store after [UPDATE ... SET
    number_type=1 WHERE id=1]. *)
Definition scenario_rows : list label_row :=
  [LabelRow 1 (utf8 "三楼住着一百人") (utf8 "三") 0 1;
   LabelRow 2 (utf8 "三楼住着一百人") (utf8 "一百") 4 6].

Definition scenario_after : database :=
  with_table (extraction_step scenario_db)
    (foldl exec_update (number_level_analysis (extraction_step scenario_db))
       [Update 1 1]).

(** In that run the occurrence with id 1 is answered and ends labelled. *)
Lemma labeling_run_coverage_witness :
  ∃ o', number_level_analysis scenario_after !! 1 = Some o' ∧
        terminal (number_type o').
Proof.
  assert (Hrun : process_all (H := mock_runtime) partial_svc
                   (λ futures, futures) scenario_db = Finished scenario_after)
    by (vm_compute; reflexivity).
  assert (Hb : scenario_rows ∈
            make_batches BATCH_SIZE
              (fetch_rows_to_label
                 (number_level_analysis (extraction_step scenario_db))))
    by (vm_compute; left).
  assert (Hr : LabelRow 1 (utf8 "三楼住着一百人") (utf8 "三") 0 1 ∈ scenario_rows)
    by left.
  assert (Hans : answered
            (process_batch_api_task (H := mock_runtime) partial_svc
               scenario_rows).2 1).
  { right. eexists. split; [vm_compute; reflexivity|]. right.
    exists [entry (JInt 1) (JInt 1)], (entry (JInt 1) (JInt 1)).
    split; [vm_compute; reflexivity|]. split; [left | vm_compute; reflexivity]. }
  exact (proj2 (labeling_run_coverage (H := mock_runtime) partial_svc
                  (λ futures, futures) scenario_db scenario_after
                  (λ futures, reflexivity futures) Hrun
                  scenario_rows
                  (LabelRow 1 (utf8 "三楼住着一百人") (utf8 "三") 0 1)
                  Hb Hr) Hans).
Defined.

(** A service every post to which meets a connection error. *)
Definition dead_svc : oracle := λ _ k, PostRaises (RequestException k).

(** * Further properties of the labeling script *)

(** ** The extractor on texts without numerals *)

(** X1. [extract_chinese_numbers] returns the empty list exactly for the
    texts that hold no numeral glyph, the empty text among them. *)
Theorem extract_chinese_numbers_nil (text : pystr) :
  extract_chinese_numbers text = [] ↔ ∀ c, c ∈ text → is_numeral c = false.
Proof.
  destruct (finditer_ok 0 text [] eq_refl) as [He _ _ Hc].
  { intros c0 c1 Hl. discriminate Hl. }
  simpl in He, Hc. fold (extract_chinese_numbers text) in He, Hc. split.
  - intros Hnil c Hin. destruct (is_numeral c) eqn:Hn; [|done].
    apply list_elem_of_lookup in Hin as [i Hi].
    destruct (Hc i c ltac:(lia) Hi Hn) as (m & Hm & _).
    rewrite Hnil in Hm. by apply elem_of_nil in Hm.
  - intros Hnone. destruct (extract_chinese_numbers text) as [|m ms]; [done|].
    apply Forall_cons in He as [Hm _].
    destruct (match_ok_inside text m (m_start m) Hm) as (c & Hl & Hn).
    { destruct Hm. lia. }
    apply list_elem_of_lookup_2 in Hl. rewrite (Hnone c Hl) in Hn. done.
Qed.

(** ** Backoff of the oracle client *)

Section Backoff.
Context `{!PyRuntime}.

Lemma retry_loop_sleeps_success replies i n last_err tr k v :
  (k < n)%nat →
  (∀ j, (j < k)%nat → fails (replies (i + j)%nat)) →
  attempt (replies (i + k)%nat) = Ok v →
  sleeps (retry_loop replies i n last_err tr).2 =
  sleeps tr ++ (backoff <$> seq i k).
Proof.
  revert i n last_err tr.
  induction k as [|k IH]; intros i n last_err tr Hk Hfail Hok.
  - destruct n as [|n]; [lia|]. simpl.
    rewrite Nat.add_0_r in Hok. rewrite Hok. simpl. by rewrite app_nil_r.
  - destruct n as [|n]; [lia|]. simpl.
    destruct (Hfail 0%nat ltac:(lia)) as [e He].
    rewrite Nat.add_0_r in He. rewrite He.
    rewrite (IH (S i) n (Some e) _ ltac:(lia)).
    + simpl. by rewrite <- app_assoc.
    + intros j Hj. replace (S i + j)%nat with (i + S j)%nat by lia.
      apply Hfail. lia.
    + by replace (S i + k)%nat with (i + S k)%nat by lia.
Qed.

Lemma retry_loop_sleeps_fail replies i n last_err tr :
  (∀ j, (j < n)%nat → fails (replies (i + j)%nat)) →
  sleeps (retry_loop replies i n last_err tr).2 =
  sleeps tr ++ (backoff <$> seq i n).
Proof.
  revert i last_err tr. induction n as [|n IH]; intros i last_err tr Hfail.
  - simpl. by rewrite app_nil_r.
  - simpl. destruct (Hfail 0%nat ltac:(lia)) as [e He].
    rewrite Nat.add_0_r in He. rewrite He. rewrite IH.
    + simpl. by rewrite <- app_assoc.
    + intros j Hj. replace (S i + j)%nat with (i + S j)%nat by lia.
      apply Hfail. lia.
Qed.

(** X2. The client sleeps once after each failed attempt, for
    [0.5 * (i + 1)] seconds after attempt [i]: a call that succeeds at
    attempt [k] has slept [k] times, and a call whose [retry] attempts all
    fail has slept [retry] times, the last time just before it raises. *)
Theorem call_gemini_json_backoff replies (retry : nat) :
  (∀ k v, (k < retry)%nat →
     (∀ j, (j < k)%nat → fails (replies j)) →
     attempt (replies k) = Ok v →
     sleeps (call_gemini_json replies retry).2 = backoff <$> seq 0 k) ∧
  ((∀ j, (j < retry)%nat → fails (replies j)) →
     sleeps (call_gemini_json replies retry).2 = backoff <$> seq 0 retry) ∧
  (∀ i, backoff i == (1 # 2) * inject_Z (Z.of_nat i + 1))%Q.
Proof.
  unfold call_gemini_json. split; [|split].
  - intros k v Hk Hfail Hok.
    by rewrite (retry_loop_sleeps_success replies 0 retry None _ k v).
  - intros Hfail. by rewrite retry_loop_sleeps_fail.
  - intros i. reflexivity.
Qed.

End Backoff.

(** With the two failures of [flaky_replies] the client sleeps 0.5 s and
    then 1 s. *)
Lemma call_gemini_json_backoff_witness :
  sleeps (call_gemini_json (H := mock_runtime) flaky_replies 3).2
  = [backoff 0; backoff 1].
Proof.
  apply (proj1 (call_gemini_json_backoff (H := mock_runtime) flaky_replies 3)
           2%nat scenario_reply).
  - lia.
  - intros j Hj. exists (RequestException j).
    destruct j as [|[|j]]; [reflexivity | reflexivity | lia].
  - reflexivity.
Defined.

(** ** What the extraction pass inserts *)

Section Inserted.
Implicit Types (db : database) (occs : list (Z * pystr * number_match)).

(** The row an occurrence is stored as. *)
Definition occurrence_row (occ : Z * pystr * number_match) : occurrence :=
  Occurrence occ.1.1 occ.1.2 (m_text occ.2)
    (Z.of_nat (m_start occ.2)) (Z.of_nat (m_end occ.2)) None.

Lemma insert_all_snoc db occs occ :
  insert_all db (occs ++ [occ]) =
  insert_number (insert_all db occs) occ.1.1 occ.1.2 occ.2.
Proof. unfold insert_all. by rewrite foldl_app. Qed.

Lemma insert_all_id_seq db occs :
  id_seq (insert_all db occs) = id_seq db + Z.of_nat (length occs).
Proof.
  induction occs as [|occ occs IH] using rev_ind; [simpl; lia|].
  rewrite insert_all_snoc, length_app. simpl. rewrite IH. lia.
Qed.

(** The pass stores the occurrences under the consecutive ids that follow
    the sequence and keeps the rows under the other ids. *)
Lemma insert_all_lookup db occs k :
  number_level_analysis (insert_all db occs) !! k =
  if decide (id_seq db < k ≤ id_seq db + Z.of_nat (length occs))
  then occurrence_row <$> occs !! Z.to_nat (k - id_seq db - 1)
  else number_level_analysis db !! k.
Proof.
  induction occs as [|occ occs IH] using rev_ind.
  - simpl. rewrite decide_False by lia. done.
  - rewrite insert_all_snoc. simpl.
    rewrite lookup_insert, insert_all_id_seq, IH, length_app. simpl.
    destruct (decide (id_seq db + Z.of_nat (length occs) + 1 = k)) as [<-|Hk].
    + rewrite decide_True by lia.
      replace (Z.to_nat (id_seq db + Z.of_nat (length occs) + 1 - id_seq db - 1))
        with (length occs) by lia.
      by rewrite list_lookup_middle.
    + destruct (decide (id_seq db < k ≤ id_seq db + Z.of_nat (length occs)))
        as [Hin|Hout].
      * rewrite decide_True by lia.
        rewrite lookup_app_l by lia. done.
      * rewrite decide_False by lia. done.
Qed.

End Inserted.

(** X3. On an empty occurrence table, the extraction step stores one row
    per match of the selected sentences, in order, under the consecutive
    ids that follow the sequence, each with [number_type] NULL; it stores
    nothing else, and the sequence advances by the number of rows. *)
Theorem extraction_step_rows (db : database) :
  number_level_analysis db = ∅ →
  let occs := extracted (sentences_without_di db) in
  let db' := extraction_step db in
  (∀ i occ, occs !! i = Some occ →
     number_level_analysis db' !! (id_seq db + 1 + Z.of_nat i)
     = Some (occurrence_row occ)) ∧
  (∀ k, ¬ (id_seq db < k ≤ id_seq db + Z.of_nat (length occs)) →
     number_level_analysis db' !! k = None) ∧
  id_seq db' = id_seq db + Z.of_nat (length occs) ∧
  new_num_sentences db' = new_num_sentences db.
Proof.
  intros Hempty occs db'.
  assert (Hdb' : db' = insert_all db occs).
  { unfold db', extraction_step. rewrite Hempty, map_size_empty.
    rewrite decide_True by done. apply extract_and_insert_numbers_flat. }
  rewrite Hdb'. split; [|split; [|split]].
  - intros i occ Hi. rewrite insert_all_lookup.
    pose proof (lookup_lt_Some _ _ _ Hi).
    rewrite decide_True by lia.
    replace (Z.to_nat (id_seq db + 1 + Z.of_nat i - id_seq db - 1)) with i by lia.
    by rewrite Hi.
  - intros k Hk. rewrite insert_all_lookup.
    rewrite decide_False by done. by rewrite Hempty.
  - apply insert_all_id_seq.
  - apply insert_all_sentences.
Qed.

(** The scenario's sentence gives the rows 1 and 2. *)
Lemma extraction_step_rows_witness :
  number_level_analysis (extraction_step scenario_db) !! 2
  = Some (Occurrence 7 (utf8 "三楼住着一百人") (utf8 "一百") 4 6 None).
Proof.
  apply (proj1 (extraction_step_rows scenario_db eq_refl) 1%nat
           (7, utf8 "三楼住着一百人", NumberMatch (utf8 "一百") 4 6)).
  vm_compute. reflexivity.
Defined.

(** X4. Every row the extraction pass adds satisfies the invariant of an
    occurrence: its span lies within its sentence,
    [0 <= number_start < number_end <= len(sentence)], its text is that
    slice of the sentence and is made of numeral glyphs, and it is
    unlabeled. *)
Theorem inserted_rows_well_formed (db : database) (k : Z) (o : occurrence) :
  number_level_analysis (extract_and_insert_numbers db) !! k = Some o →
  number_level_analysis db !! k ≠ Some o →
  0 ≤ number_start o < number_end o ∧
  number_end o ≤ Z.of_nat (length (sentence o)) ∧
  number_text o =
    py_slice (sentence o) (Z.to_nat (number_start o)) (Z.to_nat (number_end o)) ∧
  Forall (λ c, is_numeral c = true) (number_text o) ∧
  number_type o = None.
Proof.
  intros Hk Hnew. rewrite extract_and_insert_numbers_flat in Hk.
  apply insert_all_rows in Hk as [Hk | (occ & Hin & ->)]; [done|].
  unfold extracted in Hin.
  apply list_elem_of_bind in Hin as ([sid content] & Hocc & _).
  apply list_elem_of_fmap in Hocc as (m & -> & Hm). simpl in *.
  destruct (finditer_ok 0 content [] eq_refl) as [He _ _ _].
  { intros c0 c1 Hl. discriminate Hl. }
  simpl in He. rewrite Forall_forall in He.
  destruct (He m Hm) as [Hb Ht Hg _ _].
  rewrite !Nat2Z.id. repeat split; try done; lia.
Qed.

(** Row 2 of the scenario is new and well formed. *)
Lemma inserted_rows_well_formed_witness :
  0 ≤ 4 < 6 ∧ 6 ≤ Z.of_nat (length (utf8 "三楼住着一百人")).
Proof.
  assert (Hk : number_level_analysis (extract_and_insert_numbers scenario_db) !! 2
               = Some (Occurrence 7 (utf8 "三楼住着一百人") (utf8 "一百") 4 6 None))
    by (vm_compute; reflexivity).
  assert (Hnew : number_level_analysis scenario_db !! 2
                 ≠ Some (Occurrence 7 (utf8 "三楼住着一百人") (utf8 "一百") 4 6 None))
    by (vm_compute; discriminate).
  pose proof (inserted_rows_well_formed scenario_db 2 _ Hk Hnew) as (Hs & He & _).
  exact (conj Hs He).
Defined.

(** ** What is fetched for labeling *)

Section Fetch.
Implicit Types (tbl : gmap Z occurrence).

#[local] Instance by_id_transitive : Transitive by_id.
Proof. intros a b c. unfold by_id. lia. Qed.

#[local] Instance by_id_total : Total by_id.
Proof. intros a b. unfold by_id. lia. Qed.

Lemma NoDup_fmap_filter {A B} (g : A → B) (f : A → bool) (l : list A) :
  NoDup (g <$> l) → NoDup (g <$> List.filter f l).
Proof.
  induction l as [|x l IH]; simpl; [done|].
  rewrite NoDup_cons. intros [Hx Hl]. destruct (f x); simpl; [|by apply IH].
  apply NoDup_cons. split; [|by apply IH].
  intros (y & Hy & Hin)%list_elem_of_fmap. apply Hx.
  apply list_elem_of_fmap. exists y. split; [done|].
  apply list_elem_of_In in Hin. apply filter_In in Hin as [Hin _].
  by apply list_elem_of_In.
Qed.

Lemma StronglySorted_le_lt (l : list Z) :
  StronglySorted Z.le l → NoDup l → StronglySorted Z.lt l.
Proof.
  induction 1 as [|x l Hl IH Hx]; intros Hnd; [constructor|].
  apply NoDup_cons in Hnd as [Hnin Hnd].
  constructor; [by apply IH|].
  rewrite Forall_forall in Hx. apply Forall_forall. intros y Hy.
  specialize (Hx y Hy). assert (x ≠ y) by (intros ->; done). lia.
Qed.

(** The rows selected by the query, before they are turned into dicts. *)
Definition unlabeled_rows tbl : list (Z * occurrence) :=
  merge_sort by_id (List.filter (λ kv, is_unlabeled kv.2) (map_to_list tbl)).

Lemma fetch_rows_to_label_ids tbl :
  row_id <$> fetch_rows_to_label tbl = (unlabeled_rows tbl).*1.
Proof.
  unfold fetch_rows_to_label. fold (unlabeled_rows tbl).
  rewrite <- list_fmap_compose. done.
Qed.

Lemma fetch_rows_to_label_sorted tbl :
  StronglySorted Z.lt (row_id <$> fetch_rows_to_label tbl).
Proof.
  rewrite fetch_rows_to_label_ids. apply StronglySorted_le_lt.
  - apply (StronglySorted_fmap fst by_id Z.le); [by intros a b|].
    apply StronglySorted_merge_sort; apply _.
  - unfold unlabeled_rows. rewrite merge_sort_Permutation.
    apply NoDup_fmap_filter, NoDup_fst_map_to_list.
Qed.

Lemma fetch_rows_to_label_NoDup tbl : NoDup (row_id <$> fetch_rows_to_label tbl).
Proof.
  rewrite fetch_rows_to_label_ids.
  unfold unlabeled_rows. rewrite merge_sort_Permutation.
  apply NoDup_fmap_filter, NoDup_fst_map_to_list.
Qed.

Lemma fetch_rows_to_label_complete tbl k o :
  tbl !! k = Some o → number_type o = None →
  to_label_row (k, o) ∈ fetch_rows_to_label tbl.
Proof.
  intros Hk Hnull. unfold fetch_rows_to_label.
  apply list_elem_of_fmap_2. rewrite merge_sort_Permutation.
  apply list_elem_of_In, filter_In. split.
  - apply list_elem_of_In, elem_of_map_to_list. done.
  - unfold is_unlabeled. simpl. by rewrite Hnull.
Qed.

End Fetch.

(** X5. [fetch_rows_to_label] returns the rows of the table whose
    [number_type] is NULL, all of them and no other, each with the
    columns of its row, in strictly ascending order of id (so none
    twice). *)
Theorem fetch_rows_to_label_spec (tbl : gmap Z occurrence) :
  (∀ r, r ∈ fetch_rows_to_label tbl ↔
        ∃ o, tbl !! row_id r = Some o ∧ number_type o = None ∧
             r = to_label_row (row_id r, o)) ∧
  StronglySorted Z.lt (row_id <$> fetch_rows_to_label tbl).
Proof.
  split; [|apply fetch_rows_to_label_sorted].
  intros r. split.
  - unfold fetch_rows_to_label.
    intros ([k o] & -> & Hkv)%list_elem_of_fmap.
    rewrite merge_sort_Permutation in Hkv.
    apply list_elem_of_In, filter_In in Hkv as [Hin Hun].
    apply list_elem_of_In, elem_of_map_to_list in Hin.
    exists o. simpl. split; [done|]. split; [|done].
    unfold is_unlabeled in Hun. simpl in Hun. by destruct (number_type o).
  - intros (o & Hk & Hnull & ->). by apply fetch_rows_to_label_complete.
Qed.

(** ** What a labeling run can and cannot change *)

(** The state a run ends with, however it ends. *)
Definition outcome {S : Type} (r : run_result S) : S :=
  match r with
  | Finished s => s
  | RolledBack _ s => s
  end.

(** [tbl'] holds the rows of [tbl] under the same ids, each with the same
    columns except that a [number_type] may have been set to one of the
    four codes. *)
Definition relabels (tbl tbl' : gmap Z occurrence) : Prop :=
  ∀ k, match tbl !! k, tbl' !! k with
       | None, None => True
       | Some o, Some o' =>
           o' = with_number_type (number_type o') o ∧
           (number_type o' = number_type o ∨ terminal (number_type o'))
       | _, _ => False
       end.

Section RunScope.
Context `{!PyRuntime}.
Implicit Types (batch b : list label_row) (tbl : gmap Z occurrence)
  (completed pre post : list (list label_row * json)) (k : Z).

Lemma relabels_refl tbl : relabels tbl tbl.
Proof.
  intros k. destruct (tbl !! k) as [o|]; [|done].
  split; [by rewrite with_number_type_same | by left].
Qed.

Lemma relabels_trans t1 t2 t3 : relabels t1 t2 → relabels t2 t3 → relabels t1 t3.
Proof.
  intros H12 H23 k. specialize (H12 k). specialize (H23 k).
  destruct (t1 !! k) as [o1|], (t2 !! k) as [o2|], (t3 !! k) as [o3|]; try done.
  destruct H12 as [E12 T12], H23 as [E23 T23]. split.
  - rewrite E23, E12. done.
  - destruct T23 as [->|]; [done | by right].
Qed.

Lemma reconcile_relabels batch api tbl tbl' :
  reconcile batch api tbl = Ok tbl' → relabels tbl tbl'.
Proof.
  intros (us & Hus & ->)%reconcile_Ok k.
  rewrite lookup_exec_updates. destruct (tbl !! k) as [o|]; simpl; [|done].
  split; [done|]. apply final_type_cases.
  intros u Hu. by destruct (batch_updates_sound _ _ _ _ Hus Hu).
Qed.

(** A statement selects only rows whose id is, as a double, the id it
    carries. *)
Lemma selects_float8 (u : update_stmt) k :
  selects u k = true → float8 k = float8 (where_id u).
Proof.
  unfold selects, where_id. destruct (where_param u) as [rid|rid]; simpl;
    intros Hsel; apply bool_decide_eq_true in Hsel; by rewrite Hsel.
Qed.

Lemma reconcile_outside_float8 batch api tbl tbl' k :
  reconcile batch api tbl = Ok tbl' →
  (∀ r, r ∈ batch → float8 k ≠ float8 (row_id r)) →
  tbl' !! k = tbl !! k.
Proof.
  intros (us & Hus & ->)%reconcile_Ok Hk.
  rewrite lookup_exec_updates. apply final_type_untouched_fmap.
  intros u Hu. destruct (selects u k) eqn:Hsel; [|done].
  destruct (batch_updates_sound _ _ _ _ Hus Hu) as [Hin _].
  apply list_elem_of_fmap in Hin as (r & Hr & Hrin).
  destruct (Hk r Hrin). rewrite <- Hr. by apply selects_float8.
Qed.

Lemma reconcile_outside batch api tbl tbl' k :
  reconcile batch api tbl = Ok tbl' →
  (∀ r, r ∈ batch → exact_id (row_id r)) →
  k ∉ row_id <$> batch →
  tbl' !! k = tbl !! k.
Proof.
  intros (us & Hus & ->)%reconcile_Ok Hexact Hk.
  rewrite lookup_exec_updates. apply final_type_untouched_fmap.
  intros u Hu. destruct (selects u k) eqn:Hsel; [|done].
  by destruct (batch_updates_selects batch api us u k Hus Hu Hexact Hsel).
Qed.

Lemma label_loop_relabels completed tbl :
  relabels tbl (outcome (label_loop completed tbl)).
Proof.
  revert tbl. induction completed as [|[b a] rest IH]; intros tbl; simpl.
  - apply relabels_refl.
  - destruct (reconcile b a tbl) as [t1|e] eqn:Hrec; simpl.
    + eapply relabels_trans; [by eapply reconcile_relabels | apply IH].
    + apply relabels_refl.
Qed.

Lemma label_loop_outside completed tbl k :
  (∀ c r, c ∈ completed → r ∈ c.1 → exact_id (row_id r)) →
  (∀ c, c ∈ completed → k ∉ row_id <$> c.1) →
  outcome (label_loop completed tbl) !! k = tbl !! k.
Proof.
  revert tbl. induction completed as [|[b a] rest IH]; intros tbl Hexact Hout; simpl.
  - done.
  - destruct (reconcile b a tbl) as [t1|e] eqn:Hrec; simpl; [|done].
    rewrite IH
      by (intros; (eapply Hexact || apply Hout); try done; by right).
    apply (reconcile_outside b a); [done| |].
    + intros r Hr. apply (Hexact (b, a)); [left | done].
    + apply (Hout (b, a)). left.
Qed.


End RunScope.


(** A table can be checked for ids in the exact range by evaluation. *)
Lemma exact_ids_table_check (tbl : gmap Z occurrence) :
  forallb (λ kv, Z.abs kv.1 <? 2 ^ 53) (map_to_list tbl) = true →
  exact_ids tbl.
Proof.
  intros Hall k [o Hk]. rewrite forallb_forall in Hall.
  apply elem_of_map_to_list, list_elem_of_In in Hk.
  specialize (Hall _ Hk). unfold exact_id. simpl in Hall. lia.
Qed.

Section ProcessAllScope.
Context `{!PyRuntime}.
Implicit Types (db : database) (svc : oracle)
  (sched : list (list label_row * json) → list (list label_row * json)).

(** The three shapes a run of [process_all] takes. *)
Lemma process_all_outcome svc sched db :
  let db1 := extraction_step db in
  let rows := fetch_rows_to_label (number_level_analysis db1) in
  (rows = [] ∧ process_all svc sched db = Finished db1) ∨
  (rows ≠ [] ∧
   outcome (process_all svc sched db) =
   with_table db1
     (outcome (label_loop
                 (sched (process_batch_api_task svc <$> make_batches BATCH_SIZE rows))
                 (number_level_analysis db1)))).
Proof.
  intros db1 rows. unfold process_all. fold db1. fold rows.
  destruct rows as [|r rows']; [by left|]. right. split; [done|].
  by destruct (label_loop _ _).
Qed.

(** Every batch handed to the loop is made of fetched rows. *)
Lemma scheduled_rows_fetched svc sched tbl c r :
  (∀ futures, sched futures ≡ₚ futures) →
  c ∈ sched (process_batch_api_task svc <$>
               make_batches BATCH_SIZE (fetch_rows_to_label tbl)) →
  r ∈ c.1 → r ∈ fetch_rows_to_label tbl.
Proof.
  intros Hperm Hc Hr. rewrite Hperm in Hc.
  apply list_elem_of_fmap in Hc as (b & -> & Hb).
  rewrite process_batch_api_task_batch in Hr.
  apply (make_batches_member BATCH_SIZE _ b); [unfold BATCH_SIZE; lia|done|done].
Qed.

(** On a table with ids in the exact range, so are the ids of the
    batches. *)
Lemma scheduled_rows_exact svc sched tbl c r :
  (∀ futures, sched futures ≡ₚ futures) →
  exact_ids tbl →
  c ∈ sched (process_batch_api_task svc <$>
               make_batches BATCH_SIZE (fetch_rows_to_label tbl)) →
  r ∈ c.1 → exact_id (row_id r).
Proof.
  intros Hperm Hexact Hc Hr.
  pose proof (scheduled_rows_fetched svc sched tbl c r Hperm Hc Hr) as Hrow.
  destruct (fetch_rows_to_label_unlabeled _ _ Hrow) as (o & Ho & _).
  apply Hexact. by exists o.
Qed.

(** No id occurs in two futures, or twice in one. *)
Lemma scheduled_ids_NoDup svc sched tbl :
  (∀ futures, sched futures ≡ₚ futures) →
  NoDup (sched (process_batch_api_task svc <$>
                  make_batches BATCH_SIZE (fetch_rows_to_label tbl))
         ≫= future_ids).
Proof.
  intros Hperm. rewrite Hperm, list_fmap_bind.
  assert (Hids : ∀ bs : list (list label_row),
            bs ≫= future_ids ∘ process_batch_api_task svc
            = row_id <$> concat bs).
  { induction bs as [|b bs IHbs]; [done|].
    simpl. rewrite fmap_app, <- IHbs. f_equal.
    unfold future_ids. simpl. by rewrite process_batch_api_task_batch. }
  rewrite Hids, make_batches_concat by (unfold BATCH_SIZE; lia).
  apply fetch_rows_to_label_NoDup.
Qed.

(** X7. However a run of [process_all] ends, beyond its extraction step
    it leaves the sentence table and the id sequence as they are, adds or
    removes no occurrence row, and changes in a row nothing but
    [number_type], which it sets to 0, 1, 2 or [-1] if it sets it. *)
Theorem process_all_relabels_only svc sched db :
  let db1 := extraction_step db in
  let db' := outcome (process_all svc sched db) in
  new_num_sentences db' = new_num_sentences db1 ∧
  id_seq db' = id_seq db1 ∧
  relabels (number_level_analysis db1) (number_level_analysis db').
Proof.
  intros db1 db'. unfold db'.
  destruct (process_all_outcome svc sched db) as [[_ ->] | [_ ->]]; simpl.
  - split; [done|]. split; [done|]. apply relabels_refl.
  - split; [done|]. split; [done|]. apply label_loop_relabels.
Qed.


(** X9. When no row is unlabeled after the extraction step, [process_all]
    returns at once: it ends normally with the database of that step,
    whatever the service would have replied. *)
Theorem process_all_nothing_to_label svc sched db :
  (∀ k o, number_level_analysis (extraction_step db) !! k = Some o →
          number_type o ≠ None) →
  process_all svc sched db = Finished (extraction_step db).
Proof.
  intros Hall.
  destruct (process_all_outcome svc sched db) as [[_ ->] | [Hne _]]; [done|].
  destruct (fetch_rows_to_label (number_level_analysis (extraction_step db)))
    as [|r rows] eqn:Hrows; [done|].
  assert (Hr : r ∈ fetch_rows_to_label (number_level_analysis (extraction_step db)))
    by (rewrite Hrows; left).
  destruct (fetch_rows_to_label_unlabeled _ _ Hr) as (o & Ho & Hnull).
  by destruct (Hall _ _ Ho).
Qed.

End ProcessAllScope.

(** The scenario's store once both rows are labelled. *)
Definition scenario_done : database :=
  with_table (extraction_step scenario_db)
    (foldl exec_update (number_level_analysis (extraction_step scenario_db))
       [Update 1 1; Update (-1) 2]).


(** A table can be checked for unlabeled rows by evaluation. *)
Lemma all_labelled_check (tbl : gmap Z occurrence) :
  forallb (λ kv, negb (is_unlabeled kv.2)) (map_to_list tbl) = true →
  ∀ k o, tbl !! k = Some o → number_type o ≠ None.
Proof.
  intros Hall k o Hk. rewrite forallb_forall in Hall.
  apply elem_of_map_to_list, list_elem_of_In in Hk.
  specialize (Hall _ Hk). unfold is_unlabeled in Hall. simpl in Hall.
  by destruct (number_type o).
Qed.

(** With both rows labelled the run has nothing to do. *)
Lemma process_all_nothing_to_label_witness :
  process_all (H := mock_runtime) dead_svc (λ futures, futures) scenario_done
  = Finished (extraction_step scenario_done).
Proof.
  apply (process_all_nothing_to_label (H := mock_runtime) dead_svc
           (λ futures, futures) scenario_done).
  apply all_labelled_check. vm_compute. reflexivity.
Defined.

(** ** Commits and rollback *)

(** A response the loop body cannot handle: neither an object nor null,
    or an object whose result list has an entry that is not an object. *)
Definition is_object (v : json) : bool :=
  match v with JObj _ => true | _ => false end.

Definition malformed (api_result : json) : Prop :=
  (is_object api_result = false ∧ api_result ≠ JNull) ∨
  ∃ fields items item,
    api_result = JObj fields ∧
    default (JArr []) (assoc (utf8 "results") fields) = JArr items ∧
    item ∈ items ∧ is_object item = false.

Section Rollback.
Context `{!PyRuntime}.
Implicit Types (b : list label_row) (tbl : gmap Z occurrence)
  (pre post : list (list label_row * json)).

Lemma results_updates_raises m items item :
  item ∈ items → is_object item = false →
  ∃ e, results_updates m items = Raise e.
Proof.
  intros Hin Hobj. induction items as [|x items IH]; [by apply elem_of_nil in Hin|].
  simpl. destruct (item_updates m x) as [us|e] eqn:Hx; simpl; [|eauto].
  apply elem_of_cons in Hin as [<- | Hin].
  - destruct item; try discriminate Hobj; discriminate Hx.
  - destruct (IH Hin) as [e ->]. simpl. eauto.
Qed.

Lemma batch_updates_malformed b a :
  malformed a → ∃ e, batch_updates b a = Raise e.
Proof.
  intros [[Hobj Hnull] | (fields & items & item & -> & Hres & Hin & Hobj)].
  - destruct a; try done; simpl; eauto.
  - rewrite (batch_updates_results _ _ _ Hres).
    by apply (results_updates_raises _ _ item).
Qed.

Lemma label_loop_raise pre b a post tbl t1 e :
  label_loop pre tbl = Finished t1 →
  batch_updates b a = Raise e →
  label_loop (pre ++ (b, a) :: post) tbl = RolledBack e t1.
Proof.
  revert tbl. induction pre as [|[b' a'] pre IH]; intros tbl; simpl.
  - intros [= <-] Hraise. unfold reconcile. by rewrite Hraise.
  - destruct (reconcile b' a' tbl) as [t2|e']; [apply IH | done].
Qed.

(** X10. Commits are per batch. When the batches completed so far were
    reconciled and the next response is malformed (not an object, or with
    an entry that is not an object), the run stops in the rollback branch:
    the table is the one committed after the earlier batches, none of the
    malformed batch's statements remains, and the batches that complete
    later are not reconciled at all. *)
Theorem malformed_response_rolls_back pre b a post tbl t1 :
  label_loop pre tbl = Finished t1 →
  malformed a →
  ∃ e, label_loop (pre ++ (b, a) :: post) tbl = RolledBack e t1.
Proof.
  intros Hpre Hbad. destruct (batch_updates_malformed b a Hbad) as [e He].
  exists e. by apply label_loop_raise.
Qed.

End Rollback.

(** A first batch is committed; the second response has an entry that is
    a number; a third batch is never reached. *)
Lemma malformed_response_rolls_back_witness :
  ∃ e, label_loop (H := mock_runtime)
         ([([third_row], JNull)] ++
          (scenario_rows,
           JObj [(utf8 "results", JArr [entry (JInt 1) (JInt 1); JInt 2])])
          :: [(scenario_rows, scenario_reply)])
         three_tbl
       = RolledBack e (foldl exec_update three_tbl [Update (-1) 3]).
Proof.
  apply (malformed_response_rolls_back (H := mock_runtime)).
  - vm_compute. reflexivity.
  - right. exists [(utf8 "results", JArr [entry (JInt 1) (JInt 1); JInt 2])],
      [entry (JInt 1) (JInt 1); JInt 2], (JInt 2).
    split; [reflexivity|]. split; [vm_compute; reflexivity|].
    split; [right; left | reflexivity].
Defined.

(** ** Order of completion *)

Section CompletionOrder.
Context `{!PyRuntime}.
Implicit Types (b : list label_row) (tbl : gmap Z occurrence)
  (completed : list (list label_row * json)).

Lemma exec_updates_comm tbl (us vs : list update_stmt) :
  (∀ u v k, u ∈ us → v ∈ vs → selects u k = true → selects v k = true → False) →
  foldl exec_update (foldl exec_update tbl us) vs =
  foldl exec_update (foldl exec_update tbl vs) us.
Proof.
  intros Hdisj. apply map_eq. intros k.
  rewrite !lookup_exec_updates.
  destruct (tbl !! k) as [o|]; simpl; [|done]. f_equal.
  destruct (decide (Exists (λ u, selects u k = true) us)) as [Hex|Hnex].
  - apply Exists_exists in Hex as (u & Hu & Hk).
    assert (Hvs : ∀ v, v ∈ vs → selects v k = false).
    { intros v Hv. destruct (selects v k) eqn:Hkv; [|done].
      destruct (Hdisj u v k Hu Hv Hk Hkv). }
    by rewrite !(final_type_untouched vs).
  - assert (Hus : ∀ u, u ∈ us → selects u k = false).
    { intros u Hu. destruct (selects u k) eqn:Hk; [|done].
      destruct Hnex. apply Exists_exists. eauto. }
    by rewrite !(final_type_untouched us).
Qed.

Lemma label_loop_permutation completed1 completed2 tbl tbl' :
  completed1 ≡ₚ completed2 →
  NoDup (completed1 ≫= future_ids) →
  (∀ c r, c ∈ completed1 → r ∈ c.1 → exact_id (row_id r)) →
  label_loop completed1 tbl = Finished tbl' →
  label_loop completed2 tbl = Finished tbl'.
Proof.
  intros Hperm. revert tbl tbl'.
  induction Hperm as [|[b a] l1 l2 Hperm IH|[b1 a1] [b2 a2] l|l1 l2 l3 H12 IH12 H23 IH23];
    intros tbl tbl' Hnd Hexact Hrun.
  - done.
  - simpl in *. destruct (reconcile b a tbl) as [t1|e]; [|done].
    apply IH; [|intros c r Hc; apply Hexact; by right|done].
    by apply NoDup_app in Hnd as (_ & _ & Hnd).
  - simpl in *.
    unfold reconcile in *.
    destruct (batch_updates b2 a2) as [us2|e2] eqn:Hus2; simpl in *; [|done].
    destruct (batch_updates b1 a1) as [us1|e1] eqn:Hus1; simpl in *; [|done].
    rewrite <- Hrun. f_equal.
    apply exec_updates_comm. intros u v k Hu Hv Hsu Hsv.
    destruct (batch_updates_selects b1 a1 us1 u k Hus1 Hu) as [_ Hin1]; [|done|].
    { intros r Hr. apply (Hexact (b1, a1)); [right; left | done]. }
    destruct (batch_updates_selects b2 a2 us2 v k Hus2 Hv) as [_ Hin2]; [|done|].
    { intros r Hr. apply (Hexact (b2, a2)); [left | done]. }
    apply NoDup_app in Hnd as (_ & Hdisj & _).
    apply (Hdisj k); [done|].
    apply elem_of_app. by left.
  - apply IH23; [by rewrite <- H12 | | by apply IH12].
    intros c r Hc. apply Hexact. by rewrite H12.
Qed.


End CompletionOrder.

(** A sentence with twenty-one numerals, hence two batches, and a service
    that answers every record of a batch with type 0. *)
Definition many_db : database :=
  Database
    [(1, utf8 "一人二人三人四人五人六人七人八人九人十人一人二人三人四人五人六人七人八人九人十人一人")]
    ∅ 0.

Definition cardinal_svc : oracle := λ batch_rows _,
  Response 200
    (Some (completion
             (JObj [(utf8 "results",
                     JArr ((λ r, entry (JInt (row_id r)) (JInt 0)) <$> batch_rows))]))).

Definition many_after : database :=
  with_table (extraction_step many_db)
    (foldl exec_update (number_level_analysis (extraction_step many_db))
       ((λ r, Update 0 (row_id r)) <$>
          fetch_rows_to_label (number_level_analysis (extraction_step many_db)))).


(** ** Per-record decode failures *)

Section DecodeFailure.
Context `{!PyRuntime}.
Implicit Types (batch : list label_row) (tbl : gmap Z occurrence).

(** [int] makes the integer [z] of the value of an entry's [type]: a JSON
    integer as it is, [true] and [false] as 1 and 0, a finite float cut
    off towards zero, a string that [int] can read. *)
Inductive reads_as : json → Z → Prop :=
| reads_int z : reads_as (JInt z) z
| reads_true : reads_as (JBool true) 1
| reads_false : reads_as (JBool false) 0
| reads_float q : reads_as (JFloat (FFinite q)) (Z.quot (Qnum q) (Z.pos (Qden q)))
| reads_str s z : str_to_int s = Some z → reads_as (JStr s) z.

(** The [type] of an entry is a decode failure: it is missing
    ([item.get] gives [None] then, as it does for a JSON null), a list or
    an object, a NaN or an infinity, a string that [int] rejects, or a
    value of which [int] makes an integer other than 0, 1, 2. *)
Inductive decode_failure : json → Prop :=
| fail_missing : decode_failure JNull
| fail_array l : decode_failure (JArr l)
| fail_object l : decode_failure (JObj l)
| fail_nan : decode_failure (JFloat FNan)
| fail_inf neg : decode_failure (JFloat (FInf neg))
| fail_text s : str_to_int s = None → decode_failure (JStr s)
| fail_range ty z : reads_as ty z → ¬ valid_type z → decode_failure ty.

Lemma reads_as_py_int ty z : reads_as ty z → py_int ty = Ok z.
Proof. intros [z'| | |q|s z' Hs]; simpl; try done. by rewrite Hs. Qed.

Lemma decode_failure_decode ty : decode_failure ty → decode_type ty = -1.
Proof.
  unfold decode_type.
  intros [|l|l| |neg|s Hs|ty' z Hz Hv]; simpl; try done.
  - by rewrite Hs.
  - rewrite (reads_as_py_int _ _ Hz). by rewrite decide_False.
Qed.

Lemma reads_as_decode ty z : reads_as ty z → valid_type z → decode_type ty = z.
Proof.
  intros Hz Hv. unfold decode_type.
  rewrite (reads_as_py_int _ _ Hz). by rewrite decide_True.
Qed.

Lemma relabels_types tbl tbl' k o o' :
  relabels tbl tbl' → tbl !! k = Some o → tbl' !! k = Some o' →
  number_type o' = number_type o ∨ terminal (number_type o').
Proof.
  intros Hrel Ho Ho'. specialize (Hrel k). rewrite Ho, Ho' in Hrel.
  by destruct Hrel.
Qed.


End DecodeFailure.

(** C6 fails as stated. An entry whose [type] is the JSON value [true],
    and one whose [type] is the string ["2"], are not numeric, yet their
    records are not marked [-1]: [int] makes 1 and 2 of them, and the
    records are stored as Ordinal and Idiomatic. *)
Lemma decode_coercion_counterexample :
  ∃ tbl',
    reconcile (H := mock_runtime) three_rows
      (JObj [(utf8 "results",
              JArr [entry (JInt 1) (JBool true);
                    entry (JInt 2) (JStr (utf8 "2"))])])
      three_tbl = Ok tbl' ∧
    number_type <$> tbl' !! 1 = Some (Some 1) ∧
    number_type <$> tbl' !! 2 = Some (Some 2) ∧
    number_type <$> tbl' !! 1 ≠ Some (Some (-1)) ∧
    number_type <$> tbl' !! 2 ≠ Some (Some (-1)).
Proof.
  eexists. split; [vm_compute; reflexivity|].
  split; [vm_compute; reflexivity|]. split; [vm_compute; reflexivity|].
  split; vm_compute; discriminate.
Qed.


(** ** A batch whose call fails on every attempt *)

Section WholeBatchFailure.
Context `{!PyRuntime}.

Lemma same_columns_trans o1 o2 o3 :
  same_columns o1 o2 → same_columns o2 o3 → same_columns o1 o3.
Proof.
  unfold same_columns. intros (?&?&?&?&?) (?&?&?&?&?).
  repeat split; congruence.
Qed.

(** A run that finishes with rows to label has finished its loop. *)
Lemma process_all_finished svc sched db db' :
  process_all svc sched db = Finished db' →
  fetch_rows_to_label (number_level_analysis (extraction_step db)) ≠ [] →
  ∃ tbl',
    label_loop
      (sched (process_batch_api_task svc <$>
                make_batches BATCH_SIZE
                  (fetch_rows_to_label (number_level_analysis (extraction_step db)))))
      (number_level_analysis (extraction_step db)) = Finished tbl' ∧
    number_level_analysis db' = tbl'.
Proof.
  unfold process_all.
  destruct (fetch_rows_to_label (number_level_analysis (extraction_step db)))
    as [|r rows] eqn:Hrows; [done|].
  intros Hrun _.
  destruct (label_loop _ _) as [tbl'|e tbl']; [|done].
  injection Hrun as <-. by exists tbl'.
Qed.


End WholeBatchFailure.

(** A service that answers a full batch with a result list holding a
    number in place of an entry, and fails every call for a shorter
    batch. *)
Definition garbled_svc : oracle := λ batch_rows k,
  if decide (length batch_rows = BATCH_SIZE)
  then Response 200
         (Some (completion (JObj [(utf8 "results", JArr [JInt 5])])))
  else PostRaises (RequestException k).

(** A store whose twenty-one occurrences get the ids [2^53 - 19] to
    [2^53 + 1], and a service that answers a full batch for the id
    [2^53], written as a float, and fails every call for a shorter
    batch. *)
Definition big_db : database :=
  Database (new_num_sentences many_db) ∅ (2 ^ 53 - 20).

Definition alias_svc : oracle := λ batch_rows k,
  if decide (length batch_rows = BATCH_SIZE)
  then Response 200
         (Some (completion
                  (JObj [(utf8 "results",
                          JArr [entry (JFloat (FFinite (inject_Z (2 ^ 53))))
                                  (JInt 1)])])))
  else PostRaises (RequestException k).

(** C7 fails as stated. The twenty-one occurrences make two batches, the
    second holding the last occurrence alone; every call for it fails.
    When the first batch completes first and its response is garbled, the
    loop raises and the run is rolled back: the record of the failed
    batch is never marked and stays unlabeled. And when the failed batch
    completes first and the first batch is then answered for the id
    [2^53] as a float, the run finishes with the record of the failed
    batch, id [2^53 + 1], labelled 1 instead of [-1]. *)
Lemma whole_batch_failure_counterexample :
  ((λ b : list label_row, row_id <$> b) <$> make_batches BATCH_SIZE
      (fetch_rows_to_label (number_level_analysis (extraction_step many_db))))
  = [Z.of_nat <$> seq 1 20; [21%Z]] ∧
  (∀ (b : list label_row) i, row_id <$> b = [21] →
     fails (H := mock_runtime) (garbled_svc b i)) ∧
  (∃ e db',
     process_all (H := mock_runtime) garbled_svc (λ futures, futures) many_db
     = RolledBack e db' ∧
     number_type <$> number_level_analysis db' !! 21 = Some None) ∧
  ((λ b : list label_row, row_id <$> b) <$> make_batches BATCH_SIZE
      (fetch_rows_to_label (number_level_analysis (extraction_step big_db))))
  = [(λ i : nat, 2 ^ 53 - 20 + Z.of_nat i) <$> seq 1 20; [2 ^ 53 + 1]] ∧
  (∀ (b : list label_row) i, row_id <$> b = [2 ^ 53 + 1] →
     fails (H := mock_runtime) (alias_svc b i)) ∧
  (∃ db',
     process_all (H := mock_runtime) alias_svc reverse big_db = Finished db' ∧
     number_type <$> number_level_analysis db' !! (2 ^ 53 + 1) = Some (Some 1)).
Proof.
  split; [vm_compute; reflexivity|]. split.
  { intros b i Hb. unfold garbled_svc.
    rewrite decide_False.
    - by exists (RequestException i).
    - apply (f_equal length) in Hb. rewrite length_fmap in Hb. simpl in Hb.
      rewrite Hb. unfold BATCH_SIZE. lia. }
  split.
  { eexists _, _. split; [vm_compute; reflexivity|]. vm_compute. reflexivity. }
  split; [vm_compute; reflexivity|]. split.
  { intros b i Hb. unfold alias_svc.
    rewrite decide_False.
    - by exists (RequestException i).
    - apply (f_equal length) in Hb. rewrite length_fmap in Hb. simpl in Hb.
      rewrite Hb. unfold BATCH_SIZE. lia. }
  eexists. split; [vm_compute; reflexivity|]. vm_compute. reflexivity.
Qed.

(** A service that answers a full batch with type 0 for every record and
    fails every call for a shorter batch; the store after the run. *)
Definition half_dead_svc : oracle := λ batch_rows k,
  if decide (length batch_rows = BATCH_SIZE)
  then cardinal_svc batch_rows k
  else PostRaises (RequestException k).

Definition last_batch : list label_row :=
  drop 20 (fetch_rows_to_label (number_level_analysis (extraction_step many_db))).

Definition half_after : database :=
  with_table (extraction_step many_db)
    (foldl exec_update (number_level_analysis (extraction_step many_db))
       (((λ r, Update 0 (row_id r)) <$>
           take 20
             (fetch_rows_to_label (number_level_analysis (extraction_step many_db))))
        ++ [Update (-1) 21])).


(** * The sentence store script: [Searching4Nums_Store.py] *)

Definition MAX_DOCS_FOR_TEST : N := 10000.

(** The longest prefix whose characters satisfy [p], and what follows it. *)
Fixpoint take_while (p : N → bool) (s : pystr) : pystr :=
  match s with
  | c :: s' => if p c then c :: take_while p s' else []
  | [] => []
  end.

Fixpoint drop_while (p : N → bool) (s : pystr) : pystr :=
  match s with
  | c :: s' => if p c then drop_while p s' else s
  | [] => []
  end.

Lemma drop_while_length p s : (length (drop_while p s) ≤ length s)%nat.
Proof.
  induction s as [|c s IH]; simpl; [lia|].
  destruct (p c); simpl; lia.
Qed.

(** The characters of a [str] for which [isspace] holds; [strip] removes
    them at both ends. *)
Definition py_isspace (c : N) : bool :=
  ((9 <=? c) && (c <=? 13) || (28 <=? c) && (c <=? 32)
   || (c =? 133) || (c =? 160) || (c =? 5760)
   || (8192 <=? c) && (c <=? 8202)
   || (c =? 8232) || (c =? 8233) || (c =? 8239) || (c =? 8287)
   || (c =? 12288))%N.

Definition py_lstrip (s : pystr) : pystr := drop_while py_isspace s.

Definition py_rstrip (s : pystr) : pystr :=
  reverse (drop_while py_isspace (reverse s)).

Definition py_strip (s : pystr) : pystr := py_lstrip (py_rstrip s).

(** The character class of the split pattern: [。！？] and the newline. *)
Definition terminators : pystr := utf8 "。！？" ++ [10%N].

Definition is_terminator (c : N) : bool := existsb (N.eqb c) terminators.

Definition not_terminator (c : N) : bool := negb (is_terminator c).

(** A value together with the equation that names it. *)
Definition inspect {A : Type} (x : A) : {y : A | x = y} := exist _ x eq_refl.

(** [re.split] for a pattern that is one capturing group around a
    repeated character class: the text before the first run of
    terminators, that run, and the split of what follows it; the text
    alone when it has no terminator. *)
Equations? re_split (s : pystr) : list pystr by wf (length s) lt :=
  re_split s with inspect (drop_while not_terminator s) := {
    | exist _ [] _ => [s];
    | exist _ (c :: rest) Hrest =>
        take_while not_terminator s ::
        (c :: take_while is_terminator rest) ::
        re_split (drop_while is_terminator rest) }.
Proof.
  pose proof (drop_while_length is_terminator rest).
  pose proof (drop_while_length not_terminator s) as Hs.
  rewrite Hrest in Hs. simpl in Hs. lia.
Qed.

(** The list [new_sents] of [split_sentences] before it is stripped:
    each text joined with the terminators that follow it, and the last
    text when it is not empty. *)
Definition sentence_pieces (text : pystr) : list pystr :=
  let sentences := re_split text in
  let new_sents :=
    (λ i, nth i sentences [] ++ nth (i + 1) sentences []) <$>
      py_range (length sentences - 1) 2 in
  if negb (length sentences mod 2 =? 0)%nat &&
     negb (bool_decide (List.last sentences [] = []))
  then new_sents ++ [List.last sentences []]
  else new_sents.

(** [[s.strip() for s in new_sents if s.strip()]]. *)
Definition split_sentences (text : pystr) : list pystr :=
  py_strip <$>
    List.filter (λ s, negb (bool_decide (py_strip s = []))) (sentence_pieces text).

(** [chinese_num_pattern.search(sentence)] finds something. *)
Definition has_numeral (sentence : pystr) : bool := existsb is_numeral sentence.

(** The table [new_num_sentences] with the last value of its [SERIAL]
    sequence. *)
Record sentence_table := SentenceTable {
  rows_of : list (Z * pystr);
  serial : Z
}.

(** [INSERT INTO new_num_sentences (content) VALUES (%s)]. *)
Definition insert_sentence (st : sentence_table) (content : pystr)
    : sentence_table :=
  SentenceTable (rows_of st ++ [(serial st + 1, content)]) (serial st + 1).

(** The body of the document loop for one non-empty text. *)
Definition store_sentences (st : sentence_table) (content : pystr)
    : sentence_table :=
  foldl (λ st1 sentence,
           if has_numeral sentence
           then insert_sentence st1 (py_strip sentence)
           else st1)
    st (split_sentences content).

(** The loop [for i, sample in enumerate(dataset)] from index [i] on, each
    sample given by its text ([[]] when it has none): an empty text is
    skipped by [continue], before the test that ends the loop. This is the
    path on which neither the dataset nor the database raises; progress
    output and the intermediate commits are left out. *)
Fixpoint store_documents (max_docs i : N) (dataset : list pystr)
    (st : sentence_table) : sentence_table :=
  match dataset with
  | [] => st
  | content :: rest =>
      match content with
      | [] => store_documents max_docs (N.succ i) rest st
      | _ =>
          let st1 := store_sentences st content in
          if (max_docs <=? i)%N then st1
          else store_documents max_docs (N.succ i) rest st1
      end
  end.

Definition process_dataset_and_save_to_sql (dataset : list pystr)
    (st : sentence_table) : sentence_table :=
  store_documents MAX_DOCS_FOR_TEST 0 dataset st.

(** ** Splitting a text into sentences *)

Section Split.
Implicit Types (s text : pystr) (p : N → bool).

Lemma take_drop_while p s : take_while p s ++ drop_while p s = s.
Proof.
  induction s as [|c s IH]; simpl; [done|].
  destruct (p c); simpl; [by rewrite IH | done].
Qed.

Lemma drop_while_head p s c : head (drop_while p s) = Some c → p c = false.
Proof.
  induction s as [|d s IH]; simpl; [done|].
  destruct (p d) eqn:E; [done|]. simpl. congruence.
Qed.

Lemma drop_while_nil p s : drop_while p s = [] → Forall (λ c, p c = true) s.
Proof.
  induction s as [|c s IH]; simpl; [constructor|].
  destruct (p c) eqn:E; [|done]. intros Hs. constructor; [done | by apply IH].
Qed.

Lemma drop_while_suffix p s : ∃ a, s = a ++ drop_while p s.
Proof. exists (take_while p s). by rewrite take_drop_while. Qed.

Lemma drop_while_fixed p s :
  (∀ c, head s = Some c → p c = false) → drop_while p s = s.
Proof.
  destruct s as [|c s]; simpl; [done|].
  intros H. by rewrite (H c eq_refl).
Qed.

Lemma re_split_cases s :
  match drop_while not_terminator s with
  | [] => re_split s = [s]
  | c :: rest =>
      re_split s =
      take_while not_terminator s :: (c :: take_while is_terminator rest) ::
        re_split (drop_while is_terminator rest)
  end.
Proof.
  funelim (re_split s).
  - by rewrite e.
  - by rewrite Hrest.
Qed.

Lemma re_split_not_nil s : re_split s ≠ [].
Proof.
  pose proof (re_split_cases s) as H.
  destruct (drop_while not_terminator s); by rewrite H.
Qed.

(** The pairing loop for a list of an odd number of parts. *)
Definition pieces_of (sentences : list pystr) : list pystr :=
  let new_sents :=
    (λ i, nth i sentences [] ++ nth (i + 1) sentences []) <$>
      py_range (length sentences - 1) 2 in
  if negb (length sentences mod 2 =? 0)%nat &&
     negb (bool_decide (List.last sentences [] = []))
  then new_sents ++ [List.last sentences []]
  else new_sents.

Lemma pieces_of_single t : pieces_of [t] = if decide (t = []) then [] else [t].
Proof.
  unfold pieces_of. simpl.
  destruct (decide (t = [])) as [->|Hne]; [done|].
  by rewrite bool_decide_eq_false_2.
Qed.

Lemma py_range_step2 n :
  py_range (S n) 2 = 0%nat :: ((λ i, S (S i)) <$> py_range (n - 1) 2).
Proof.
  unfold py_range.
  assert (Hq : ((S n + 2 - 1) / 2 = S ((n - 1 + 2 - 1) / 2))%nat).
  { destruct n as [|n]; [done|].
    replace (S (S n) + 2 - 1)%nat with (n + 1 + 1 * 2)%nat by lia.
    rewrite Nat.div_add by done.
    replace (S n - 1 + 2 - 1)%nat with (n + 1)%nat by lia. lia. }
  rewrite Hq. simpl. f_equal.
  rewrite <- fmap_S_seq, <- !list_fmap_compose.
  apply list_fmap_ext. intros _ k _. simpl. lia.
Qed.

Lemma pieces_of_cons2 a b (l : list pystr) :
  l ≠ [] → pieces_of (a :: b :: l) = (a ++ b) :: pieces_of l.
Proof.
  intros Hne. unfold pieces_of.
  assert (Hlast : List.last (a :: b :: l) [] = List.last l [])
    by (destruct l; [done | reflexivity]).
  assert (Hpar : (length (a :: b :: l) mod 2 = length l mod 2)%nat).
  { change (length (a :: b :: l)) with (S (S (length l))).
    replace (S (S (length l))) with (length l + 1 * 2)%nat by lia.
    by rewrite Nat.Div0.mod_add. }
  rewrite Hlast, Hpar.
  replace (length (a :: b :: l) - 1)%nat with (S (length l)) by (simpl; lia).
  rewrite py_range_step2. rewrite fmap_cons, <- list_fmap_compose.
  assert (Hmap : (λ i, nth i (a :: b :: l) [] ++ nth (i + 1) (a :: b :: l) [])
                 ∘ (λ i, S (S i))
                 = (λ i, nth i l [] ++ nth (i + 1) l [])) by done.
  rewrite Hmap.
  destruct (negb (length l mod 2 =? 0)%nat &&
            negb (bool_decide (List.last l [] = []))); reflexivity.
Qed.

Lemma sentence_pieces_cases s :
  match drop_while not_terminator s with
  | [] => sentence_pieces s = if decide (s = []) then [] else [s]
  | c :: rest =>
      sentence_pieces s =
      (take_while not_terminator s ++ c :: take_while is_terminator rest) ::
        sentence_pieces (drop_while is_terminator rest)
  end.
Proof.
  change (sentence_pieces s) with (pieces_of (re_split s)).
  pose proof (re_split_cases s) as H.
  destruct (drop_while not_terminator s) as [|c rest]; rewrite H.
  - apply pieces_of_single.
  - rewrite pieces_of_cons2 by apply re_split_not_nil. done.
Qed.

(** Induction along the pieces of a text. *)
Lemma sentence_pieces_ind (P : pystr → list pystr → Prop) :
  P [] [] →
  (∀ s, s ≠ [] → Forall (λ c, is_terminator c = false) s → P s [s]) →
  (∀ s c rest,
     drop_while not_terminator s = c :: rest →
     P (drop_while is_terminator rest)
       (sentence_pieces (drop_while is_terminator rest)) →
     P s ((take_while not_terminator s ++ c :: take_while is_terminator rest) ::
          sentence_pieces (drop_while is_terminator rest))) →
  ∀ s, P s (sentence_pieces s).
Proof.
  intros Hnil Hone Hstep s.
  remember (length s) as n eqn:Hn. revert s Hn.
  induction n as [n IH] using lt_wf_ind. intros s ->.
  pose proof (sentence_pieces_cases s) as Hc.
  destruct (drop_while not_terminator s) as [|c rest] eqn:Hd.
  - rewrite Hc. destruct (decide (s = [])) as [->|Hne]; [done|].
    apply Hone; [done|]. apply drop_while_nil in Hd.
    eapply Forall_impl; [exact Hd|]. intros x. unfold not_terminator.
    simpl. by intros ->%negb_true_iff.
  - rewrite Hc. apply Hstep; [done|].
    apply (IH (length (drop_while is_terminator rest))); [|done].
    pose proof (drop_while_length is_terminator rest).
    pose proof (drop_while_length not_terminator s) as Hs.
    rewrite Hd in Hs. simpl in Hs. lia.
Qed.

Lemma sentence_pieces_concat text : concat (sentence_pieces text) = text.
Proof.
  apply (sentence_pieces_ind (λ s ps, concat ps = s)).
  - done.
  - intros s _ _. simpl. by rewrite app_nil_r.
  - intros s c rest Hd IH. simpl. rewrite IH, <- app_assoc. simpl.
    rewrite take_drop_while, <- Hd. apply take_drop_while.
Qed.

End Split.

(** [s] occurs in [text] as a run of consecutive characters. *)
Definition substring (s text : pystr) : Prop := ∃ a b, text = a ++ s ++ b.

(** In [s], whatever follows a terminator is a terminator: [s] is a text
    without terminator followed by terminators only. *)
Definition terminators_last (s : pystr) : Prop :=
  ∀ i j c d, (i ≤ j)%nat → s !! i = Some c → s !! j = Some d →
    is_terminator c = true → is_terminator d = true.

Section SplitFacts.
Implicit Types (s text : pystr) (p : N → bool).

Lemma take_while_Forall p s : Forall (λ c, p c = true) (take_while p s).
Proof.
  induction s as [|c s IH]; simpl; [constructor|].
  destruct (p c) eqn:E; by constructor.
Qed.

Lemma substring_refl s : substring s s.
Proof. exists [], []. by rewrite app_nil_r. Qed.

Lemma substring_trans s1 s2 s3 :
  substring s1 s2 → substring s2 s3 → substring s1 s3.
Proof.
  intros (a & b & ->) (a' & b' & ->).
  exists (a' ++ a), (b ++ b'). by rewrite <- !app_assoc.
Qed.

Lemma substring_member (ps : list pystr) s : s ∈ ps → substring s (concat ps).
Proof.
  intros (l1 & l2 & ->)%list_elem_of_split.
  exists (concat l1), (concat l2). by rewrite concat_app.
Qed.

Lemma py_rstrip_prefix s : ∃ b, s = py_rstrip s ++ b.
Proof.
  unfold py_rstrip.
  destruct (drop_while_suffix py_isspace (reverse s)) as [a Ha].
  exists (reverse a). rewrite <- reverse_app, <- Ha. by rewrite reverse_involutive.
Qed.

Lemma py_strip_substring s : substring (py_strip s) s.
Proof.
  unfold py_strip, py_lstrip.
  destruct (py_rstrip_prefix s) as [b Hb].
  destruct (drop_while_suffix py_isspace (py_rstrip s)) as [a Ha].
  exists a, b. rewrite app_assoc, <- Ha. done.
Qed.

Lemma py_strip_head s c : head (py_strip s) = Some c → py_isspace c = false.
Proof. apply drop_while_head. Qed.

Lemma py_strip_last s c : last (py_strip s) = Some c → py_isspace c = false.
Proof.
  unfold py_strip, py_lstrip. intros Hl.
  destruct (drop_while_suffix py_isspace (py_rstrip s)) as [a Ha].
  assert (Hr : last (a ++ drop_while py_isspace (py_rstrip s)) = Some c)
    by (by rewrite last_app, Hl).
  rewrite <- Ha in Hr. unfold py_rstrip in Hr. rewrite last_reverse in Hr.
  by apply drop_while_head in Hr.
Qed.

Lemma terminators_last_substring s text :
  substring s text → terminators_last text → terminators_last s.
Proof.
  intros (a & b & ->) Ht i j c d Hij Hi Hj.
  apply (Ht (length a + i)%nat (length a + j)%nat); [lia| |].
  - rewrite lookup_app_r by lia.
    replace (length a + i - length a)%nat with i by lia.
    by rewrite lookup_app_l by (by eapply lookup_lt_Some).
  - rewrite lookup_app_r by lia.
    replace (length a + j - length a)%nat with j by lia.
    by rewrite lookup_app_l by (by eapply lookup_lt_Some).
Qed.

Lemma terminators_last_app body tail :
  Forall (λ c, is_terminator c = false) body →
  Forall (λ c, is_terminator c = true) tail →
  terminators_last (body ++ tail).
Proof.
  intros Hb Ht i j c d Hij Hi Hj Hc.
  rewrite Forall_forall in Hb, Ht.
  destruct (decide (i < length body)%nat) as [Hlt|Hge].
  - rewrite lookup_app_l in Hi by done.
    apply list_elem_of_lookup_2 in Hi. rewrite (Hb c Hi) in Hc. done.
  - rewrite lookup_app_r in Hj by lia.
    apply list_elem_of_lookup_2 in Hj. by apply Ht.
Qed.

Lemma sentence_pieces_shape text :
  Forall (λ piece, piece ≠ [] ∧ terminators_last piece) (sentence_pieces text).
Proof.
  apply (sentence_pieces_ind
           (λ _ ps, Forall (λ piece, piece ≠ [] ∧ terminators_last piece) ps)).
  - constructor.
  - intros s Hne Hnt. constructor; [|constructor]. split; [done|].
    rewrite <- (app_nil_r s). apply terminators_last_app; [done | constructor].
  - intros s c rest Hd IH. constructor; [|done]. split.
    + by destruct (take_while not_terminator s).
    + apply terminators_last_app.
      * eapply Forall_impl; [apply take_while_Forall|].
        intros x. unfold not_terminator. simpl. by intros ->%negb_true_iff.
      * constructor; [|apply take_while_Forall].
        assert (Hh : head (drop_while not_terminator s) = Some c) by (by rewrite Hd).
        apply drop_while_head in Hh. unfold not_terminator in Hh.
        by apply negb_false_iff in Hh.
Qed.

End SplitFacts.

(** X12. The pieces that [split_sentences] builds before stripping,
    concatenated, give the text back: the pairing loop loses no character
    and reorders nothing. No piece is empty, and each is a part without
    terminator followed by terminators only. *)
Theorem sentence_pieces_partition (text : pystr) :
  concat (sentence_pieces text) = text ∧
  Forall (λ piece, piece ≠ [] ∧ terminators_last piece) (sentence_pieces text).
Proof. split; [apply sentence_pieces_concat | apply sentence_pieces_shape]. Qed.

Lemma split_sentences_parts (text s : pystr) :
  s ∈ split_sentences text →
  s ≠ [] ∧
  substring s text ∧
  (∀ c, head s = Some c → py_isspace c = false) ∧
  (∀ c, last s = Some c → py_isspace c = false).
Proof.
  unfold split_sentences. intros (piece & -> & Hp)%list_elem_of_fmap.
  apply list_elem_of_In, filter_In in Hp as [Hin Hne].
  apply list_elem_of_In in Hin.
  apply negb_true_iff, bool_decide_eq_false in Hne.
  split; [done|]. split; [|split].
  - eapply substring_trans; [apply py_strip_substring|].
    rewrite <- (sentence_pieces_concat text) at 1. by apply substring_member.
  - apply py_strip_head.
  - apply py_strip_last.
Qed.

(** X13. Every sentence [split_sentences] returns is not empty, occurs in
    the text as a run of consecutive characters, neither starts nor ends
    with a whitespace character, and holds terminators only at its end. *)
Theorem split_sentences_clean (text s : pystr) :
  s ∈ split_sentences text →
  s ≠ [] ∧
  substring s text ∧
  (∀ c, head s = Some c → py_isspace c = false) ∧
  (∀ c, last s = Some c → py_isspace c = false) ∧
  terminators_last s.
Proof.
  unfold split_sentences. intros (piece & -> & Hp)%list_elem_of_fmap.
  apply list_elem_of_In, filter_In in Hp as [Hin Hne].
  apply list_elem_of_In in Hin.
  apply negb_true_iff, bool_decide_eq_false in Hne.
  assert (Hsub : substring piece text).
  { rewrite <- (sentence_pieces_concat text) at 1. by apply substring_member. }
  pose proof (sentence_pieces_shape text) as Hshape.
  rewrite Forall_forall in Hshape. destruct (Hshape piece Hin) as [_ Hlast].
  split; [done|]. split; [|split; [|split]].
  - eapply substring_trans; [apply py_strip_substring | done].
  - apply py_strip_head.
  - apply py_strip_last.
  - eapply terminators_last_substring; [apply py_strip_substring | done].
Qed.

(** The second sentence of a text with blanks around its sentences. *)
Lemma split_sentences_clean_witness :
  utf8 "b" ≠ [] ∧ substring (utf8 "b") (utf8 "  a 。b  ").
Proof.
  pose proof (split_sentences_clean (utf8 "  a 。b  ") (utf8 "b")) as H.
  destruct H as (Hne & Hsub & _); [|exact (conj Hne Hsub)].
  apply (list_elem_of_lookup_2 _ 1%nat). vm_compute. reflexivity.
Defined.

(** ** What the store script inserts *)

(** A sentence as the script stores it: it holds a numeral glyph, is not
    empty, has no whitespace at either end, and occurs in one of the
    documents. *)
Definition sentence_ok (dataset : list pystr) (content : pystr) : Prop :=
  has_numeral content = true ∧
  content ≠ [] ∧
  (∀ c, head content = Some c → py_isspace c = false) ∧
  (∀ c, last content = Some c → py_isspace c = false) ∧
  ∃ doc, doc ∈ dataset ∧ substring content doc.

(** [st'] is [st] with rows appended that take the next ids in order and
    hold sentences of the documents. *)
Definition extends (dataset : list pystr) (st st' : sentence_table) : Prop :=
  ∃ new,
    rows_of st' = rows_of st ++ new ∧
    serial st' = serial st + Z.of_nat (length new) ∧
    ∀ j row, new !! j = Some row →
      row.1 = serial st + 1 + Z.of_nat j ∧ sentence_ok dataset row.2.

Section Store.
Implicit Types (st : sentence_table) (dataset : list pystr) (s : pystr).

Lemma py_strip_fixed s :
  (∀ c, head s = Some c → py_isspace c = false) →
  (∀ c, last s = Some c → py_isspace c = false) →
  py_strip s = s.
Proof.
  intros Hh Hl. unfold py_strip, py_lstrip, py_rstrip.
  rewrite (drop_while_fixed py_isspace (reverse s))
    by (intros c; rewrite head_reverse; apply Hl).
  rewrite reverse_involutive. by apply drop_while_fixed.
Qed.

Lemma extends_refl dataset st : extends dataset st st.
Proof.
  exists []. rewrite app_nil_r. split; [done|]. split; [simpl; lia|].
  intros j row Hj. done.
Qed.

Lemma extends_trans dataset st1 st2 st3 :
  extends dataset st1 st2 → extends dataset st2 st3 → extends dataset st1 st3.
Proof.
  intros (n1 & Hr1 & Hs1 & Hn1) (n2 & Hr2 & Hs2 & Hn2).
  exists (n1 ++ n2). rewrite Hr2, Hr1, Hs2, Hs1, length_app, <- app_assoc.
  split; [done|]. split; [lia|].
  intros j row Hj. apply lookup_app_Some in Hj as [Hj | [Hge Hj]].
  - by apply Hn1.
  - destruct (Hn2 _ _ Hj) as [Hid Hok]. split; [|done]. rewrite Hid, Hs1. lia.
Qed.

Lemma extends_mono dataset dataset' st st' :
  (∀ doc, doc ∈ dataset → doc ∈ dataset') →
  extends dataset st st' → extends dataset' st st'.
Proof.
  intros Hsub (new & Hr & Hs & Hn). exists new. split; [done|]. split; [done|].
  intros j row Hj. destruct (Hn j row Hj) as (Hid & H1 & H2 & H3 & H4 & doc & Hd & Hsb).
  split; [done|]. repeat split; try done. exists doc. split; [by apply Hsub | done].
Qed.

Lemma insert_sentence_extends dataset st content :
  sentence_ok dataset content → extends dataset st (insert_sentence st content).
Proof.
  intros Hok. exists [(serial st + 1, content)]. simpl.
  split; [done|]. split; [lia|].
  intros [|j] row; [|done]. intros [= <-]. simpl. split; [lia | done].
Qed.

Lemma store_sentences_extends st content :
  extends [content] st (store_sentences st content).
Proof.
  unfold store_sentences.
  assert (Hgen : ∀ l st0,
            (∀ s, s ∈ l → s ∈ split_sentences content) →
            extends [content] st0
              (foldl (λ st1 sentence,
                        if has_numeral sentence
                        then insert_sentence st1 (py_strip sentence) else st1)
                 st0 l)).
  { induction l as [|s l IH]; intros st0 Hl; [apply extends_refl|].
    simpl. eapply extends_trans; [|apply IH; intros s' Hs'; apply Hl; by right].
    destruct (has_numeral s) eqn:Hnum; [|apply extends_refl].
    destruct (split_sentences_parts content s (Hl s ltac:(left)))
      as (Hne & Hsub & Hh & Hlast).
    rewrite (py_strip_fixed s Hh Hlast).
    apply insert_sentence_extends. repeat split; try done.
    exists content. split; [left | done]. }
  by apply Hgen.
Qed.

Lemma store_documents_extends max_docs i dataset st :
  extends dataset st (store_documents max_docs i dataset st).
Proof.
  revert i st. induction dataset as [|content rest IH]; intros i st; simpl.
  - apply extends_refl.
  - assert (Hrest : ∀ doc, doc ∈ rest → doc ∈ content :: rest) by (by right).
    assert (Hone : ∀ doc, doc ∈ [content] → doc ∈ content :: rest)
      by (intros doc ->%list_elem_of_singleton; left).
    destruct content as [|c content'].
    + eapply extends_mono; [exact Hrest | apply IH].
    + pose proof (store_sentences_extends st (c :: content')) as Hstep.
      apply (extends_mono _ _ _ _ Hone) in Hstep.
      destruct (max_docs <=? i)%N; [done|].
      eapply extends_trans; [exact Hstep|].
      eapply extends_mono; [exact Hrest | apply IH].
Qed.

End Store.

(** The filter of the store script and the extractor of the labeling
    script agree on which sentences hold a numeral. *)
Lemma has_numeral_matches (sentence : pystr) :
  has_numeral sentence = true ↔ extract_chinese_numbers sentence ≠ [].
Proof.
  destruct (finditer_ok 0 sentence [] eq_refl) as [He _ _ Hc].
  { intros c0 c1 Hl. discriminate Hl. }
  simpl in He, Hc. fold (extract_chinese_numbers sentence) in He, Hc.
  unfold has_numeral. rewrite existsb_exists. split.
  - intros (c & Hin & Hn) Hnil.
    apply list_elem_of_In, list_elem_of_lookup in Hin as [i Hi].
    destruct (Hc i c ltac:(lia) Hi Hn) as (m & Hm & _).
    rewrite Hnil in Hm. by apply elem_of_nil in Hm.
  - intros Hne. destruct (extract_chinese_numbers sentence) as [|m ms]; [done|].
    apply Forall_cons in He as [Hm _].
    destruct (match_ok_inside sentence m (m_start m) Hm) as (c & Hl & Hn).
    { destruct Hm. lia. }
    exists c. split; [|done].
    by apply list_elem_of_In, (list_elem_of_lookup_2 _ (m_start m)).
Qed.


(** ** Where the document loop stops *)

Section StopRule.
Implicit Types (st : sentence_table) (dataset pre post : list pystr) (max_docs i : N).

Lemma store_documents_beyond max_docs i i' dataset st :
  (max_docs ≤ i)%N → (max_docs ≤ i')%N →
  store_documents max_docs i dataset st = store_documents max_docs i' dataset st.
Proof.
  revert i i' st. induction dataset as [|d rest IH]; intros i i' st Hi Hi'; [done|].
  simpl. destruct d as [|c d'].
  - apply IH; lia.
  - apply N.leb_le in Hi as ->. apply N.leb_le in Hi' as ->. done.
Qed.

Lemma store_documents_all max_docs i dataset st :
  (i + N.of_nat (length dataset) ≤ max_docs + 1)%N →
  store_documents max_docs i dataset st = foldl store_sentences st dataset.
Proof.
  revert i st. induction dataset as [|d rest IH]; intros i st Hlen; [done|].
  simpl in *. destruct d as [|c d'].
  - rewrite IH by lia. done.
  - destruct (max_docs <=? i)%N eqn:Hmax.
    + apply N.leb_le in Hmax. destruct rest; [done | simpl in Hlen; lia].
    + apply IH. lia.
Qed.

Lemma store_documents_stop max_docs i pre d post st :
  (max_docs ≤ i + N.of_nat (length pre))%N → d ≠ [] →
  store_documents max_docs i (pre ++ d :: post) st =
  store_documents max_docs i (pre ++ [d]) st.
Proof.
  intros Hmax Hd. revert i st Hmax.
  induction pre as [|x pre IH]; intros i st Hmax; simpl in *.
  - destruct d as [|c d']; [done|].
    assert (Hle : (max_docs <=? i)%N = true) by (apply N.leb_le; lia).
    by rewrite Hle.
  - destruct x as [|c x'].
    + apply IH. lia.
    + destruct (max_docs <=? i)%N; [done|]. apply IH. lia.
Qed.

Lemma store_documents_skip_empty max_docs i pre post st :
  (max_docs ≤ i + N.of_nat (length pre))%N →
  store_documents max_docs i (pre ++ [] :: post) st =
  store_documents max_docs i (pre ++ post) st.
Proof.
  revert i st. induction pre as [|x pre IH]; intros i st Hmax; simpl in *.
  - apply store_documents_beyond; lia.
  - destruct x as [|c x'].
    + apply IH. lia.
    + destruct (max_docs <=? i)%N; [done|]. apply IH. lia.
Qed.

End StopRule.



(** * The ordinal count script: [count_di.py] *)

(** The character [第]. *)
Definition is_di (c : N) : bool := existsb (N.eqb c) (utf8 "第").

(** The pattern matches at the head of [s]: a [第] and then at least one
    numeral glyph. *)
Definition ordinal_at (s : pystr) : bool :=
  match s with
  | c :: d :: _ => is_di c && is_numeral d
  | _ => false
  end.

(** [ORDINAL_PATTERN.findall(content)]: scan from the left; on a match,
    take [第] with the longest run of glyphs and resume after it;
    otherwise move one character to the right. *)
Equations? ordinal_findall (s : pystr) : list pystr by wf (length s) lt :=
  ordinal_findall [] := [];
  ordinal_findall (c :: s') with ordinal_at (c :: s') := {
    | true => (c :: run s') :: ordinal_findall (after_run s');
    | false => ordinal_findall s' }.
Proof.
  all: simpl; try lia.
  pose proof (after_run_length s'). lia.
Qed.

(** The order of [ORDER BY id] on the sentence table. *)
Definition by_row_id (a b : Z * pystr) : Prop := a.1 ≤ b.1.

#[global] Instance by_row_id_dec : RelDecision by_row_id :=
  λ a b, Z_le_dec a.1 b.1.

(** [SELECT id, content FROM new_num_sentences WHERE id <= 8764 AND
    content LIKE '%第%' ORDER BY id]. *)
Definition ordinal_rows (tbl : list (Z * pystr)) : list (Z * pystr) :=
  merge_sort by_row_id
    (List.filter (λ row, (row.1 <=? 8764) && like_infix (utf8 "第") row.2) tbl).

(** The loop over the rows: the pair [(sentence_count, total_count)]. *)
Definition count_matches (rows : list (Z * pystr)) : nat * nat :=
  foldl (λ counts row,
           let matches := ordinal_findall row.2 in
           (match matches with
            | [] => counts.1
            | _ => S counts.1
            end,
            (counts.2 + length matches)%nat))
    (0%nat, 0%nat) rows.

(** The two counts that [main] prints. *)
Definition count_di_main (tbl : list (Z * pystr)) : nat * nat :=
  count_matches (ordinal_rows tbl).

Section Ordinals.
Implicit Types (s : pystr) (tbl rows : list (Z * pystr)).

Lemma ordinal_at_spec s :
  ordinal_at s = true ↔
  ∃ c d b, s = c :: d :: b ∧ is_di c = true ∧ is_numeral d = true.
Proof.
  unfold ordinal_at. destruct s as [|c [|d b]].
  - split; [done | by intros (? & ? & ? & ? & _)].
  - split; [done | by intros (? & ? & ? & ? & _)].
  - rewrite andb_true_iff. split.
    + intros [Hc Hd]. by exists c, d, b.
    + intros (c' & d' & b' & [= -> -> ->] & Hc & Hd). done.
Qed.

Lemma ordinal_findall_found s :
  ordinal_findall s ≠ [] ↔
  ∃ a c d b, s = a ++ c :: d :: b ∧ is_di c = true ∧ is_numeral d = true.
Proof.
  funelim (ordinal_findall s).
  - split; [done|]. intros (a & c & d & b & Hs & _). by destruct a.
  - split; [|done]. intros _.
    apply ordinal_at_spec in Heq as (c' & d & b & [= <- ->] & Hc & Hd).
    by exists [], c, d, b.
  - rewrite H. split.
    + intros (a & c' & d & b & -> & Hc & Hd). by exists (c :: a), c', d, b.
    + intros (a & c' & d & b & Hs & Hc & Hd). destruct a as [|x a].
      * simpl in Hs. injection Hs as -> ->.
        assert (Hat : ordinal_at (c' :: d :: b) = true)
          by (apply ordinal_at_spec; by exists c', d, b).
        congruence.
      * injection Hs as -> ->. by exists a, c', d, b.
Qed.

(** What a single match is: [第], then a non-empty run of numeral glyphs,
    found in the text. *)
Definition ordinal_match (s m : pystr) : Prop :=
  ∃ c r, m = c :: r ∧ is_di c = true ∧ r ≠ [] ∧
         Forall (λ d, is_numeral d = true) r ∧ substring m s.

Lemma ordinal_findall_matches s : Forall (ordinal_match s) (ordinal_findall s).
Proof.
  funelim (ordinal_findall s).
  - constructor.
  - apply ordinal_at_spec in Heq as (c' & d & b & [= <- ->] & Hc & Hd).
    constructor.
    + exists c, (run (d :: b)). split; [done|]. split; [done|]. split.
      * simpl. by rewrite Hd.
      * split; [apply run_numeral|].
        exists [], (after_run (d :: b)).
        by rewrite app_nil_l, <- app_comm_cons, run_after_run.
    + eapply Forall_impl; [exact H|].
      intros m (c0 & r & -> & Hc0 & Hr & Hnum & Hsub).
      exists c0, r. repeat split; try done.
      eapply substring_trans; [exact Hsub|].
      exists (c :: run (d :: b)), [].
      by rewrite app_nil_r, <- app_comm_cons, run_after_run.
  - eapply Forall_impl; [exact H|].
    intros m (c0 & r & -> & Hc0 & Hr & Hnum & Hsub).
    exists c0, r. repeat split; try done.
    eapply substring_trans; [exact Hsub|].
    exists [c], []. by rewrite app_nil_r.
Qed.

Lemma is_di_infix c : is_di c = true → utf8 "第" = [c].
Proof.
  unfold is_di. change (utf8 "第") with [31532%N]. simpl.
  rewrite orb_false_r. by intros ->%N.eqb_eq.
Qed.

Lemma ordinal_findall_without_di s :
  like_infix (utf8 "第") s = false → ordinal_findall s = [].
Proof.
  intros Hlike. destruct (ordinal_findall s) as [|m ms] eqn:Hf; [done|].
  assert (Hne : ordinal_findall s ≠ []) by (by rewrite Hf).
  apply ordinal_findall_found in Hne as (a & c & d & b & -> & Hc & _).
  assert (Hin : like_infix (utf8 "第") (a ++ c :: d :: b) = true).
  { apply like_infix_spec. exists a, (d :: b). by rewrite (is_di_infix c Hc). }
  congruence.
Qed.

(** The two summands a row contributes. *)
Definition row_has_ordinal (row : Z * pystr) : nat :=
  match ordinal_findall row.2 with [] => 0 | _ => 1 end.

Definition row_ordinals (row : Z * pystr) : nat := length (ordinal_findall row.2).

Lemma count_matches_sums rows :
  count_matches rows =
  (sum_list_with row_has_ordinal rows, sum_list_with row_ordinals rows).
Proof.
  unfold count_matches.
  assert (Hgen : ∀ a b,
            foldl (λ counts row,
                     let matches := ordinal_findall row.2 in
                     (match matches with [] => counts.1 | _ => S counts.1 end,
                      (counts.2 + length matches)%nat)) (a, b) rows
            = ((a + sum_list_with row_has_ordinal rows)%nat,
               (b + sum_list_with row_ordinals rows)%nat)).
  { induction rows as [|row rows IH]; intros a b; simpl.
    - f_equal; lia.
    - rewrite IH. unfold row_has_ordinal, row_ordinals.
      destruct (ordinal_findall row.2); simpl; f_equal; lia. }
  apply Hgen.
Qed.

Lemma sum_filter_irrelevant (f : Z * pystr → nat) (p q : Z * pystr → bool) tbl :
  (∀ row, q row = false → f row = 0%nat) →
  sum_list_with f (List.filter (λ row, p row && q row) tbl) =
  sum_list_with f (List.filter p tbl).
Proof.
  intros Hq. induction tbl as [|row tbl IH]; simpl; [done|].
  destruct (p row) eqn:Hp, (q row) eqn:Hqr; simpl; rewrite ?IH; try done.
  by rewrite (Hq row Hqr).
Qed.

Lemma row_has_ordinal_le row : (row_has_ordinal row ≤ row_ordinals row)%nat.
Proof.
  unfold row_has_ordinal, row_ordinals.
  destruct (ordinal_findall row.2); simpl; lia.
Qed.

Lemma sum_list_with_le (f g : Z * pystr → nat) rows :
  (∀ row, f row ≤ g row)%nat →
  (sum_list_with f rows ≤ sum_list_with g rows)%nat.
Proof.
  intros Hfg. induction rows as [|row rows IH]; simpl; [lia|].
  specialize (Hfg row). lia.
Qed.

End Ordinals.

(** X16. [ORDINAL_PATTERN.findall] finds something exactly in the texts
    where [第] comes immediately before a numeral glyph; each match is a
    [第] followed by a non-empty run of numeral glyphs and occurs in the
    text. *)
Theorem ordinal_findall_spec (s : pystr) :
  (ordinal_findall s ≠ [] ↔
   ∃ a c d b, s = a ++ c :: d :: b ∧ is_di c = true ∧ is_numeral d = true) ∧
  Forall (ordinal_match s) (ordinal_findall s).
Proof. split; [apply ordinal_findall_found | apply ordinal_findall_matches]. Qed.

(** X17. The counts that [count_di.py] prints are sums over the rows with
    [id <= 8764]: the number of those in which the pattern matches, and
    the number of matches in them. Neither the [LIKE '%第%'] condition nor
    the [ORDER BY] changes them, and the first count is at most the
    second and at most the number of rows with [id <= 8764]. *)
Theorem count_di_main_spec (tbl : list (Z * pystr)) :
  let in_range := List.filter (λ row, row.1 <=? 8764) tbl in
  count_di_main tbl =
    (sum_list_with row_has_ordinal in_range, sum_list_with row_ordinals in_range) ∧
  ((count_di_main tbl).1 ≤ (count_di_main tbl).2)%nat ∧
  ((count_di_main tbl).1 ≤ length in_range)%nat.
Proof.
  intros in_range.
  assert (Hmain : count_di_main tbl =
            (sum_list_with row_has_ordinal in_range,
             sum_list_with row_ordinals in_range)).
  { unfold count_di_main, ordinal_rows. rewrite count_matches_sums.
    rewrite !merge_sort_Permutation.
    rewrite !(sum_filter_irrelevant _ (λ row, row.1 <=? 8764)
                (λ row, like_infix (utf8 "第") row.2)); [done| |].
    - intros row Hlike. unfold row_ordinals.
      by rewrite ordinal_findall_without_di.
    - intros row Hlike. unfold row_has_ordinal.
      by rewrite ordinal_findall_without_di. }
  rewrite Hmain. simpl. split; [done|]. split.
  - apply sum_list_with_le, row_has_ordinal_le.
  - clear Hmain. induction in_range as [|row rows IH]; simpl; [lia|].
    unfold row_has_ordinal at 1. destruct (ordinal_findall row.2); lia.
Qed.

(** * Running the labeling script again *)

Section SecondRun.
Context `{!PyRuntime}.
Implicit Types (db : database) (svc : oracle)
  (sched : list (list label_row * json) → list (list label_row * json)).

Lemma fetch_rows_to_label_nil (tbl : gmap Z occurrence) :
  (∀ k o, tbl !! k = Some o → number_type o ≠ None) →
  fetch_rows_to_label tbl = [].
Proof.
  intros Hall. destruct (fetch_rows_to_label tbl) as [|r rows] eqn:Hrows; [done|].
  assert (Hr : r ∈ fetch_rows_to_label tbl) by (rewrite Hrows; left).
  destruct (fetch_rows_to_label_unlabeled _ _ Hr) as (o & Ho & Hnull).
  by destruct (Hall _ _ Ho).
Qed.

Lemma extraction_step_twice db :
  extraction_step (extraction_step db) = extraction_step db.
Proof.
  destruct (extraction_step_cases db) as [Hsame | Hne].
  - by rewrite !Hsame.
  - unfold extraction_step at 1. by rewrite decide_False.
Qed.

Lemma terminal_not_null (t : option Z) : terminal t → t ≠ None.
Proof. by intros [-> | [-> | [-> | ->]]]. Qed.

(** X18. When a run has finished and every record it batched was
    answered, nothing is left to label: running [process_all] again, with
    any service and any order of completion, ends normally with the
    database unchanged. *)
Theorem process_all_second_run svc sched db db' svc' sched' :
  (∀ futures, sched futures ≡ₚ futures) →
  process_all svc sched db = Finished db' →
  (∀ b r,
     b ∈ make_batches BATCH_SIZE
           (fetch_rows_to_label (number_level_analysis (extraction_step db))) →
     r ∈ b → answered (process_batch_api_task svc b).2 (row_id r)) →
  process_all svc' sched' db' = Finished db'.
Proof.
  intros Hperm Hrun Hans.
  unfold process_all in Hrun.
  remember (extraction_step db) as db1 eqn:Hdb1.
  remember (fetch_rows_to_label (number_level_analysis db1)) as rows eqn:Hrows.
  assert (Hdone : extraction_step db' = db' ∧
                  fetch_rows_to_label (number_level_analysis db') = []).
  { destruct rows as [|r0 rows0].
    - injection Hrun as <-. split; [|done].
      rewrite Hdb1. apply extraction_step_twice.
    - destruct (label_loop _ _) as [tbl'|e tbl'] eqn:Hloop; [|done].
      injection Hrun as <-. simpl.
      assert (Hr0 : r0 ∈ fetch_rows_to_label (number_level_analysis db1))
        by (rewrite <- Hrows; left).
      destruct (fetch_rows_to_label_unlabeled _ _ Hr0) as (o0 & Ho0 & _).
      split.
      + unfold extraction_step. simpl. rewrite decide_False; [done|].
        rewrite map_size_non_empty_iff. intros Hempty.
        destruct (label_loop_terminal _ _ _ _ _ Hloop Ho0) as (o' & Ho' & _).
        rewrite Hempty, lookup_empty in Ho'. done.
      + apply fetch_rows_to_label_nil. intros k o' Ho'.
        pose proof (label_loop_relabels
                      (sched (process_batch_api_task svc <$>
                                make_batches BATCH_SIZE (r0 :: rows0)))
                      (number_level_analysis db1) k) as Hrel.
        rewrite Hloop in Hrel. simpl in Hrel. rewrite Ho' in Hrel.
        destruct (number_level_analysis db1 !! k) as [o|] eqn:Ho; [|done].
        destruct (number_type o) as [t|] eqn:Ht.
        * destruct Hrel as [_ [Heq | Hterm]];
            [rewrite Heq; done | by apply terminal_not_null].
        * destruct (label_loop_terminal _ _ _ _ _ Hloop Ho) as (o'' & Ho'' & Hterm).
          rewrite Ho' in Ho''. injection Ho'' as <-.
          apply terminal_not_null, Hterm. right.
          pose proof (fetch_rows_to_label_complete _ _ _ Ho Ht) as Hrow.
          rewrite <- Hrows in Hrow.
          rewrite <- (make_batches_concat (r0 :: rows0) BATCH_SIZE) in Hrow
            by (unfold BATCH_SIZE; lia).
          apply list_elem_of_In, in_concat in Hrow as (b & Hb & Hrb).
          apply list_elem_of_In in Hb, Hrb.
          exists (process_batch_api_task svc b). split; [|split].
          -- rewrite Hperm. by apply list_elem_of_fmap_2.
          -- rewrite process_batch_api_task_batch.
             by apply (list_elem_of_fmap_2 row_id) in Hrb.
          -- by apply (Hans b _ Hb Hrb). }
  destruct Hdone as [Hstep Hfetch].
  unfold process_all. rewrite Hstep, Hfetch. done.
Qed.

End SecondRun.

(** After the two-batch run in which every record is answered, a second
    run against a dead service changes nothing. *)
Lemma process_all_second_run_witness :
  process_all (H := mock_runtime) dead_svc reverse many_after = Finished many_after.
Proof.
  assert (Hrun : process_all (H := mock_runtime) cardinal_svc (λ futures, futures)
                   many_db = Finished many_after) by (vm_compute; reflexivity).
  apply (process_all_second_run (H := mock_runtime) cardinal_svc
           (λ futures, futures) many_db many_after dead_svc reverse
           (λ futures, reflexivity futures) Hrun).
  intros b r Hb Hr. right.
  exists [(utf8 "results", JArr ((λ r, entry (JInt (row_id r)) (JInt 0)) <$> b))].
  split; [reflexivity|]. right.
  exists ((λ r, entry (JInt (row_id r)) (JInt 0)) <$> b),
    (entry (JInt (row_id r)) (JInt 0)).
  split; [reflexivity|]. split; [|reflexivity].
  by apply (list_elem_of_fmap_2 (λ r, entry (JInt (row_id r)) (JInt 0))).
Defined.
